(** * Sanctuary chat: the session message cache and the reply-chain enrichment

    A shallow embedding of

      - [src/components/sanctuary/ChatMessageCache.ts]
        (class [ChatMessageCacheManager], a wrapper around [localStorage]), and
      - the first [useEffect] of [src/components/sanctuary/ResizableChatPanel.tsx]
        (merge of live and cached messages, reply snapshots, sort by time).

    JavaScript values are modelled as far as the two files observe them:
    JSON values for what goes through [JSON.parse]/[JSON.stringify], [Date]s as
    time values in milliseconds (or the invalid date), exceptions as an error
    result.  [localStorage] is a finite map from keys to stored strings, each
    taken up to what [JSON.parse] makes of it, in a world that also holds the
    clock; the medium may refuse access or refuse writes.  What the browser
    supplies ([Date.parse], [toISOString], the string conversions) is an
    interface, [Platform]; the theorems hold for every implementation of it.
    [console.warn] is not modelled: a caught exception leaves no other trace
    than the default returned.

    The file has the model first (values, storage, the two source files, the
    vocabulary of the properties, a platform and sample data to run the model
    on), then the facts and the theorems. *)

From Stdlib Require Import ZArith String Ascii List Lia Bool Permutation Sorted.
From stdpp Require Import base option list gmap strings pretty.

Local Open Scope Z_scope.
Local Set Warnings "-register-all".

(* ===================================================================== *)
(** * JavaScript values *)
(* ===================================================================== *)

(** A number as the program meets it: an integer (epoch milliseconds and their
    differences), or [None] for NaN. *)
Definition num := option Z.

Definition num_sub (a b : num) : num :=
  match a, b with
  | Some x, Some y => Some (x - y)
  | _, _ => None
  end.

(** [a > b] on numbers: false as soon as one side is NaN. *)
Definition num_gt (a b : num) : bool :=
  match a, b with
  | Some x, Some y => y <? x
  | _, _ => false
  end.

(** [a <= b] on numbers: false as soon as one side is NaN. *)
Definition num_le (a b : num) : bool :=
  match a, b with
  | Some x, Some y => x <=? y
  | _, _ => false
  end.

(** A value read by [JSON.parse] or written by [JSON.stringify].  An object is
    the list of its properties; the program never observes their order.
    Numerals are integers: the only numbers the program itself writes are
    [Date.now()] readings. *)
Inductive json : Type :=
| JNull
| JBool (b : bool)
| JNum (n : Z)
| JStr (s : string)
| JArr (l : list json)
| JObj (o : list (string * json)).

(** A value as a condition: [null], [false], [0] and the empty string are
    falsy. *)
Definition truthy (v : json) : bool :=
  match v with
  | JNull => false
  | JBool b => b
  | JNum n => negb (n =? 0)
  | JStr s => negb (String.eqb s "")
  | JArr _ | JObj _ => true
  end.

(** The same for what a property read returns, where [None] is
    [undefined]. *)
Definition truthy_opt (v : option json) : bool :=
  match v with
  | Some v => truthy v
  | None => false
  end.

(** [v || d] *)
Definition or_else (v : option json) (d : json) : json :=
  match v with
  | Some x => if truthy x then x else d
  | None => d
  end.

Fixpoint obj_get (k : string) (o : list (string * json)) : option json :=
  match o with
  | [] => None
  | (k', v) :: o' => if String.eqb k k' then Some v else obj_get k o'
  end.

(** Assignment of a property: in place when the key exists, appended otherwise. *)
Fixpoint obj_set (k : string) (v : json) (o : list (string * json))
  : list (string * json) :=
  match o with
  | [] => [(k, v)]
  | (k', v') :: o' =>
      if String.eqb k k' then (k, v) :: o' else (k', v') :: obj_set k v o'
  end.

Fixpoint obj_delete (k : string) (o : list (string * json))
  : list (string * json) :=
  match o with
  | [] => []
  | (k', v') :: o' =>
      if String.eqb k k' then obj_delete k o' else (k', v') :: obj_delete k o'
  end.

(** The characters of a string, each as a one-character string. *)
Fixpoint chars (s : string) : list json :=
  match s with
  | EmptyString => []
  | String c s' => JStr (String c EmptyString) :: chars s'
  end.

(** Own enumerable properties of an array-like: index [i] as the key. *)
Definition indexed (l : list json) : list (string * json) :=
  imap (fun i v => (pretty i, v)) l.

(** The properties an object spread [{...v}] copies. *)
Definition own_props (v : json) : list (string * json) :=
  match v with
  | JObj o => o
  | JArr l => indexed l
  | JStr s => indexed (chars s)
  | JNull | JBool _ | JNum _ => []
  end.

(** [{...target, ...v}] *)
Definition spread (v : json) (target : list (string * json))
  : list (string * json) :=
  fold_left (fun acc kv => obj_set kv.1 kv.2 acc) (own_props v) target.

(** ** Exceptions *)

Inductive exn : Type :=
| SyntaxError          (* JSON.parse on a text that is not JSON *)
| TypeError            (* property of null, call of a non-function *)
| RangeError           (* toISOString of an invalid date *)
| SecurityError        (* the storage medium refuses access *)
| QuotaExceededError.  (* the storage medium refuses a write *)

Inductive result (A : Type) : Type :=
| Ok (a : A)
| Throw (e : exn).
Arguments Ok {A} a.
Arguments Throw {A} e.

(** A property read [v.k], for the names the program reads ([lastUpdated],
    [messages], [id]), none of which a string, number, boolean or array has. *)
Definition get_prop (v : json) (k : string) : result (option json) :=
  match v with
  | JNull => Throw TypeError
  | JObj o => Ok (obj_get k o)
  | JBool _ | JNum _ | JStr _ | JArr _ => Ok None
  end.

(** ** Dates *)

(** A [Date]: its time value, or [None] for the invalid date. *)
Definition Date := option Z.

Definition getTime (d : Date) : num := d.

(** [TimeClip]: a time value is at most 8.64e15 ms away from the epoch. *)
Definition TimeClip (n : Z) : Date :=
  if Z.abs n <=? 8640000000000000 then Some n else None.

(** What the browser supplies. *)
Class Platform := {
  (** [Date.parse]: [None] is NaN. *)
  Date_parse : string -> option Z;
  (** [Date.prototype.toISOString] of a valid time value. *)
  toISOString_of : Z -> string;
  (** [Number(s)] for a string. *)
  StringToNumber : string -> num;
  (** [String(v)] for an array or a plain object. *)
  ObjectToString : json -> string
}.

Section Dates.
Context `{Platform}.

(** [d.toISOString()] *)
Definition toISOString (d : Date) : result string :=
  match d with
  | Some t => Ok (toISOString_of t)
  | None => Throw RangeError
  end.

(** [new Date(v)] for a value read from JSON ([None] is [undefined]). *)
Definition new_Date (v : option json) : Date :=
  match v with
  | None => None
  | Some JNull => Some 0
  | Some (JBool b) => Some (if b then 1 else 0)
  | Some (JNum n) => TimeClip n
  | Some (JStr s) => Date_parse s
  | Some (JArr l) => Date_parse (ObjectToString (JArr l))
  | Some (JObj o) => Date_parse (ObjectToString (JObj o))
  end.

(** [Number(v)] as the subtraction [Date.now() - v] applies it. *)
Definition ToNumber (v : json) : num :=
  match v with
  | JNull => Some 0
  | JBool b => Some (if b then 1 else 0)
  | JNum n => Some n
  | JStr s => StringToNumber s
  | JArr l => StringToNumber (ObjectToString (JArr l))
  | JObj o => StringToNumber (ObjectToString (JObj o))
  end.
End Dates.

(* ===================================================================== *)
(** * localStorage *)
(* ===================================================================== *)

(** A stored string, up to what [JSON.parse] makes of it: the JSON text of a
    value, or a string that is not JSON (the empty string included). *)
Inductive stored : Type :=
| Json (v : json)
| NotJson (s : string).

(** The medium: either it refuses every access, or it holds its items and
    says whether it still accepts writes. *)
Inductive LocalStorage : Type :=
| Denied
| Avail (items : gmap string stored) (full : bool).

(** The world an operation runs in.  Operations read the clock; it does not
    move while they run. *)
Record World : Type := mkWorld {
  localStorage : LocalStorage;
  clock : Z                      (* what Date.now() reads *)
}.

(** The item under a key, as an observer of the medium sees it. *)
Definition item (k : string) (w : World) : option stored :=
  match localStorage w with
  | Denied => None
  | Avail items _ => items !! k
  end.

(** ** Computations on the world that may throw *)

Definition M (A : Type) : Type := World -> result A * World.

Definition ret {A} (a : A) : M A := fun w => (Ok a, w).
Definition throw {A} (e : exn) : M A := fun w => (Throw e, w).
Definition bind {A B} (c : M A) (k : A -> M B) : M B :=
  fun w => match c w with
           | (Ok a, w') => k a w'
           | (Throw e, w') => (Throw e, w')
           end.
Definition lift {A} (r : result A) : M A := fun w => (r, w).

(** [try { body } catch (error) { handler }] *)
Definition try_catch {A} (body : M A) (handler : exn -> M A) : M A :=
  fun w => match body w with
           | (Ok a, w') => (Ok a, w')
           | (Throw e, w') => handler e w'
           end.

Notation "'let!' x ':=' c 'in' k" := (bind c (fun x => k))
  (at level 10, x name, c at level 100, k at level 200).
Notation "c ';;' k" := (bind c (fun _ => k))
  (at level 100, k at level 200, right associativity).

Definition Date_now : M Z := fun w => (Ok (clock w), w).

Definition getItem (k : string) : M (option stored) :=
  fun w => match localStorage w with
           | Denied => (Throw SecurityError, w)
           | Avail items _ => (Ok (items !! k), w)
           end.

Definition setItem (k : string) (v : stored) : M unit :=
  fun w => match localStorage w with
           | Denied => (Throw SecurityError, w)
           | Avail items true => (Throw QuotaExceededError, w)
           | Avail items false =>
               (Ok tt, mkWorld (Avail (<[k := v]> items) false) (clock w))
           end.

Definition removeItem (k : string) : M unit :=
  fun w => match localStorage w with
           | Denied => (Throw SecurityError, w)
           | Avail items full =>
               (Ok tt, mkWorld (Avail (delete k items) full) (clock w))
           end.

(** [Object.keys(localStorage)] *)
Definition Object_keys : M (list string) :=
  fun w => match localStorage w with
           | Denied => (Throw SecurityError, w)
           | Avail items _ => (Ok (map fst (map_to_list items)), w)
           end.

(** [xs.forEach(f)] *)
Fixpoint forEach {A} (f : A -> M unit) (xs : list A) : M unit :=
  match xs with
  | [] => ret tt
  | x :: xs' => f x ;; forEach f xs'
  end.

(** A string read from the medium, as a condition: [null] and the empty
    string are falsy. *)
Definition item_truthy (i : option stored) : bool :=
  match i with
  | None => false
  | Some (NotJson s) => negb (String.eqb s "")
  | Some (Json _) => true
  end.

(** [JSON.parse(i)]; [JSON.parse(null)] is [null]. *)
Definition JSON_parse (i : option stored) : result json :=
  match i with
  | None => Ok JNull
  | Some (Json v) => Ok v
  | Some (NotJson _) => Throw SyntaxError
  end.

(** [JSON.stringify(v)] *)
Definition JSON_stringify (v : json) : stored := Json v.

(* ===================================================================== *)
(** * ChatMessageCache.ts *)
(* ===================================================================== *)

Inductive MessageType : Type := text | system | emoji_reaction | media.

(** [replyToMessage]: the snapshot of the message replied to. *)
Record ReplySnapshot : Type := mkSnapshot {
  snap_id : string;
  snap_senderAlias : string;
  snap_content : string;
  snap_timestamp : string
}.

(** [interface CachedMessage] *)
Module CachedMessage.
Record t : Type := mk {
  id : string;
  senderAlias : string;
  senderAvatarIndex : Z;
  content : string;
  timestamp : string;
  type : MessageType;
  attachment : option json;
  replyTo : option string;
  replyToMessage : option ReplySnapshot
}.
End CachedMessage.

Definition json_of_type (t : MessageType) : json :=
  JStr match t with
       | text => "text"
       | system => "system"
       | emoji_reaction => "emoji-reaction"
       | media => "media"
       end.

Definition json_of_snapshot (r : ReplySnapshot) : json :=
  JObj [("id", JStr (snap_id r));
        ("senderAlias", JStr (snap_senderAlias r));
        ("content", JStr (snap_content r));
        ("timestamp", JStr (snap_timestamp r))].

Definition optional_prop {A} (k : string) (f : A -> json) (v : option A)
  : list (string * json) :=
  match v with
  | Some a => [(k, f a)]
  | None => []
  end.

(** The value [JSON.stringify] writes for a message: a property that is
    [undefined] is left out. *)
Definition json_of_message (m : CachedMessage.t) : json :=
  JObj ([("id", JStr (CachedMessage.id m));
         ("senderAlias", JStr (CachedMessage.senderAlias m));
         ("senderAvatarIndex", JNum (CachedMessage.senderAvatarIndex m));
         ("content", JStr (CachedMessage.content m));
         ("timestamp", JStr (CachedMessage.timestamp m));
         ("type", json_of_type (CachedMessage.type m))]
        ++ optional_prop "attachment" (fun a => a) (CachedMessage.attachment m)
        ++ optional_prop "replyTo" JStr (CachedMessage.replyTo m)
        ++ optional_prop "replyToMessage" json_of_snapshot
             (CachedMessage.replyToMessage m)).

(** A property of the [state] argument of [updateParticipantState]:
    not there, there and [undefined], or a boolean. *)
Inductive flag : Type := Missing | Undefined | Given (b : bool).

(** [{ isMuted?: boolean; isKicked?: boolean }] *)
Record ParticipantState : Type := mkState {
  isMuted : flag;
  isKicked : flag
}.

(** [{...target, k: f}], as [JSON.stringify] will write it: a property set to
    [undefined] is not written. *)
Definition spread_flag (k : string) (f : flag) (target : list (string * json))
  : list (string * json) :=
  match f with
  | Missing => target
  | Undefined => obj_delete k target
  | Given b => obj_set k (JBool b) target
  end.

Definition CACHE_KEY_PREFIX : string := "chat_messages_".
Definition CACHE_EXPIRY : Z := 24 * 60 * 60 * 1000.

Definition getCacheKey (sessionId : string) : string :=
  CACHE_KEY_PREFIX +:+ sessionId.

Definition stateKey (sessionId participantId : string) : string :=
  "participant_state_" +:+ sessionId +:+ "_" +:+ participantId.

(** [existingMessages.find(m => m.id === id)] on an array. *)
Fixpoint find_id (id : string) (l : list json) : result (option json) :=
  match l with
  | [] => Ok None
  | m :: l' =>
      match get_prop m "id" with
      | Throw e => Throw e
      | Ok (Some (JStr s)) => if String.eqb s id then Ok (Some m) else find_id id l'
      | Ok _ => find_id id l'
      end
  end.

Section ChatMessageCacheManager.
Context `{Platform}.

Definition clearMessages (sessionId : string) : M unit :=
  removeItem (getCacheKey sessionId).

Definition saveMessages (sessionId : string) (messages : list json) : M unit :=
  try_catch
    (let! now := Date_now in
     let! lastUpdated := lift (toISOString (Some now)) in
     let cache := JObj [("sessionId", JStr sessionId);
                        ("messages", JArr messages);
                        ("lastUpdated", JStr lastUpdated)] in
     setItem (getCacheKey sessionId) (JSON_stringify cache))
    (fun _ => ret tt).

Definition loadMessages (sessionId : string) : M json :=
  try_catch
    (let! cacheData := getItem (getCacheKey sessionId) in
     if negb (item_truthy cacheData) then ret (JArr [])
     else
       let! cache := lift (JSON_parse cacheData) in
       let! now := Date_now in
       let! lastUpdated := lift (get_prop cache "lastUpdated") in
       let cacheAge := num_sub (Some now) (getTime (new_Date lastUpdated)) in
       if num_gt cacheAge (Some CACHE_EXPIRY) then
         clearMessages sessionId ;; ret (JArr [])
       else
         let! messages := lift (get_prop cache "messages") in
         ret (or_else messages (JArr [])))
    (fun _ => ret (JArr [])).

(** [existingMessages.find] exists on an array only; on any other value
    the call is a TypeError. *)
Definition addMessage (sessionId : string) (message : CachedMessage.t)
  : M unit :=
  let! existingMessages := loadMessages sessionId in
  match existingMessages with
  | JArr existing =>
      let! exists_ := lift (find_id (CachedMessage.id message) existing) in
      if negb (truthy_opt exists_) then
        let updatedMessages := existing ++ [json_of_message message] in
        saveMessages sessionId updatedMessages
      else ret tt
  | _ => throw TypeError
  end.

(** [{ ...currentState, ...state, lastUpdated: now }] *)
Definition updatedState (currentState : json) (state : ParticipantState)
    (now : Z) : list (string * json) :=
  obj_set "lastUpdated" (JNum now)
    (spread_flag "isKicked" (isKicked state)
       (spread_flag "isMuted" (isMuted state)
          (spread currentState []))).

(** [localStorage.getItem(stateKey) || '{}'] *)
Definition item_or_empty (i : option stored) : option stored :=
  if item_truthy i then i else Some (Json (JObj [])).

Definition updateParticipantState (sessionId participantId : string)
    (state : ParticipantState) : M unit :=
  try_catch
    (let! i := getItem (stateKey sessionId participantId) in
     let! currentState := lift (JSON_parse (item_or_empty i)) in
     let! now := Date_now in
     setItem (stateKey sessionId participantId)
             (JSON_stringify (JObj (updatedState currentState state now))))
    (fun _ => ret tt).

Definition getParticipantState (sessionId participantId : string) : M json :=
  try_catch
    (let! state := getItem (stateKey sessionId participantId) in
     if negb (item_truthy state) then ret (JObj [])
     else
       let! parsed := lift (JSON_parse state) in
       let! now := Date_now in
       let! lastUpdated := lift (get_prop parsed "lastUpdated") in
       let age := num_sub (Some now) (ToNumber (or_else lastUpdated (JNum 0))) in
       if num_gt age (Some (60 * 60 * 1000)) then
         removeItem (stateKey sessionId participantId) ;; ret (JObj [])
       else ret parsed)
    (fun _ => ret (JObj [])).

Definition clearAllCache : M unit :=
  let! keys := Object_keys in
  forEach removeItem
    (List.filter (fun key => String.prefix CACHE_KEY_PREFIX key) keys).
End ChatMessageCacheManager.

(* ===================================================================== *)
(** * ResizableChatPanel.tsx: the enrichment pass *)
(* ===================================================================== *)

(** [interface ChatMessage] *)
Module ChatMessage.
Record t : Type := mk {
  id : string;
  senderAlias : string;
  senderAvatarIndex : Z;
  content : string;
  timestamp : Date;
  type : MessageType;
  mentions : option (list string);
  attachment : option json;
  replyTo : option string;
  replyToMessage : option ReplySnapshot
}.

(** [{...msg, replyToMessage: r}] *)
Definition with_replyToMessage (msg : t) (r : ReplySnapshot) : t :=
  mk (id msg) (senderAlias msg) (senderAvatarIndex msg) (content msg)
     (timestamp msg) (type msg) (mentions msg) (attachment msg)
     (replyTo msg) (Some r).
End ChatMessage.

(** [xs.map(f)] for an [f] that may throw. *)
Fixpoint mapM {A B} (f : A -> result B) (xs : list A) : result (list B) :=
  match xs with
  | [] => Ok []
  | x :: xs' =>
      match f x with
      | Throw e => Throw e
      | Ok y => match mapM f xs' with
                | Throw e => Throw e
                | Ok ys => Ok (y :: ys)
                end
      end
  end.

(** ** [Array.prototype.sort] with a comparator

    The comparator's number decides; NaN counts as [+0].  The sort is stable.
    For a comparator that is a consistent order the result is the one
    ECMAScript fixes; for the others the standard leaves the order to the
    engine, and this insertion sort is one such engine. *)
Section Sort.
Context {A : Type} (comparefn : A -> A -> num).

Definition SortCompare (x y : A) : Z :=
  match comparefn x y with
  | Some v => v
  | None => 0
  end.

Fixpoint insert_sorted (x : A) (l : list A) : list A :=
  match l with
  | [] => [x]
  | y :: l' =>
      if SortCompare x y <=? 0 then x :: y :: l' else y :: insert_sorted x l'
  end.

Fixpoint sort (l : list A) : list A :=
  match l with
  | [] => []
  | x :: l' => insert_sorted x (sort l')
  end.
End Sort.

Section Enrichment.
Context `{Platform}.

(** [{...cached, timestamp: new Date(cached.timestamp)}], with the fields
    [interface CachedMessage] declares: it has no [mentions]. *)
Definition of_cached (cached : CachedMessage.t) : ChatMessage.t :=
  ChatMessage.mk
    (CachedMessage.id cached) (CachedMessage.senderAlias cached)
    (CachedMessage.senderAvatarIndex cached) (CachedMessage.content cached)
    (Date_parse (CachedMessage.timestamp cached))
    (CachedMessage.type cached) None (CachedMessage.attachment cached)
    (CachedMessage.replyTo cached) (CachedMessage.replyToMessage cached).

(** One step of [cachedMessages.forEach]: push unless the id is there. *)
Definition push_cached (allMessages : list ChatMessage.t)
    (cached : CachedMessage.t) : list ChatMessage.t :=
  if existsb (fun m => String.eqb (ChatMessage.id m) (CachedMessage.id cached))
             allMessages
  then allMessages
  else allMessages ++ [of_cached cached].

(** [allMessages] after the [forEach]. *)
Definition allMessages (messages : list ChatMessage.t)
    (cachedMessages : list CachedMessage.t) : list ChatMessage.t :=
  fold_left push_cached cachedMessages messages.

(** [all.forEach(msg => map.set(msg.id, msg))] *)
Definition set_all (all : list ChatMessage.t)
    (map : gmap string ChatMessage.t) : gmap string ChatMessage.t :=
  fold_left (fun map msg => <[ChatMessage.id msg := msg]> map) all map.

(** [messageMap], once filled from [allMessages]. *)
Definition messageMap (all : list ChatMessage.t) : gmap string ChatMessage.t :=
  set_all all ∅.

(** The snapshot the pass attaches for a reply to [replyToMsg]. *)
Definition snapshot_of (replyToMsg : ChatMessage.t) : result ReplySnapshot :=
  match toISOString (ChatMessage.timestamp replyToMsg) with
  | Ok iso => Ok (mkSnapshot (ChatMessage.id replyToMsg)
                             (ChatMessage.senderAlias replyToMsg)
                             (ChatMessage.content replyToMsg) iso)
  | Throw e => Throw e
  end.

(** The target of [msg.replyTo && messageMap.has(msg.replyTo)]. *)
Definition reply_target (map : gmap string ChatMessage.t)
    (msg : ChatMessage.t) : option ChatMessage.t :=
  match ChatMessage.replyTo msg with
  | Some r => if String.eqb r "" then None else map !! r
  | None => None
  end.

(** The callback of [allMessages.map]. *)
Definition enhance (map : gmap string ChatMessage.t) (msg : ChatMessage.t)
  : result ChatMessage.t :=
  match reply_target map msg with
  | Some replyToMsg =>
      match snapshot_of replyToMsg with
      | Ok r => Ok (ChatMessage.with_replyToMessage msg r)
      | Throw e => Throw e
      end
  | None => Ok msg
  end.

(** [(a, b) => a.timestamp.getTime() - b.timestamp.getTime()] *)
Definition by_timestamp (a b : ChatMessage.t) : num :=
  num_sub (getTime (ChatMessage.timestamp a)) (getTime (ChatMessage.timestamp b)).

(** [enhanced], before the sort. *)
Definition enhanced (messages : list ChatMessage.t)
    (cachedMessages : list CachedMessage.t) : result (list ChatMessage.t) :=
  let all := allMessages messages cachedMessages in
  mapM (enhance (messageMap all)) all.

(** The value handed to [setEnhancedMessages]. *)
Definition enrich (messages : list ChatMessage.t)
    (cachedMessages : list CachedMessage.t) : result (list ChatMessage.t) :=
  match enhanced messages cachedMessages with
  | Ok e => Ok (sort by_timestamp e)
  | Throw e => Throw e
  end.
End Enrichment.

(* ===================================================================== *)
(** * The vocabulary of the properties *)
(* ===================================================================== *)

Section Vocabulary.
Context `{Platform}.

(** Every timestamp of the input is a valid date: a live message carries
    one, a cached message carries a string that [Date.parse] reads. *)
Definition valid_timestamps (messages : list ChatMessage.t)
    (cachedMessages : list CachedMessage.t) : Prop :=
  Forall (fun m => is_Some (ChatMessage.timestamp m)) messages ∧
  Forall (fun c => is_Some (Date_parse (CachedMessage.timestamp c)))
         cachedMessages.

(** The time value of a message with a valid date. *)
Definition time_of (msg : ChatMessage.t) : Z :=
  default 0 (ChatMessage.timestamp msg).

(** [a.timestamp <= b.timestamp] for each message [a] and its successor [b]. *)
Definition chronological (l : list ChatMessage.t) : Prop :=
  Sorted (fun a b => Is_true (num_le (getTime (ChatMessage.timestamp a))
                                     (getTime (ChatMessage.timestamp b)))) l.

(** The entries of [l] stamped [t], in the order [l] has them. *)
Definition stamped (t : Z) (l : list ChatMessage.t) : list ChatMessage.t :=
  filter (fun m => ChatMessage.timestamp m = Some t) l.

(** [msg.replyTo] is set (and not empty) and names a message of the union
    of live and cached messages. *)
Definition resolvable (messages : list ChatMessage.t)
    (cachedMessages : list CachedMessage.t) (msg : ChatMessage.t) : Prop :=
  ∃ r, ChatMessage.replyTo msg = Some r ∧ r ≠ ""%string ∧
       (r ∈ ChatMessage.id <$> messages ∨ r ∈ CachedMessage.id <$> cachedMessages).

(** A snapshot is present exactly on the resolvable replies of [out]. *)
Definition snapshot_iff_resolvable (messages : list ChatMessage.t)
    (cachedMessages : list CachedMessage.t) (out : list ChatMessage.t) : Prop :=
  ∀ msg, msg ∈ out →
    (is_Some (ChatMessage.replyToMessage msg) ↔
     resolvable messages cachedMessages msg).


(** The age of a cached record exceeds the retention window:
    [Date.now() - new Date(lastUpdated).getTime() > CACHE_EXPIRY]. *)
Definition expired (now : Z) (lastUpdated : option json) : bool :=
  num_gt (num_sub (Some now) (getTime (new_Date lastUpdated)))
         (Some CACHE_EXPIRY).

(** The state a participant's record parses to; [{}] when there is none. *)
Definition current_state (i : option stored) : json :=
  match i with
  | Some (Json v) => v
  | _ => JObj []
  end.

(** Two objects with the same properties, whatever their order. *)
Definition same_object (a b : list (string * json)) : Prop :=
  ∀ k, obj_get k a = obj_get k b.
End Vocabulary.

(* ===================================================================== *)
(** * A platform to run the model on *)
(* ===================================================================== *)

(** An implementation of [Platform] for evaluating the model on concrete
    inputs: ISO 8601 in the proleptic Gregorian calendar, as ECMAScript's
    date-time string format has it. *)
Module Reference.

Definition digit (n : Z) : ascii := ascii_of_nat (48 + Z.to_nat (n mod 10)).

(** The last [width] decimal digits of [n]. *)
Fixpoint pad (width : nat) (n : Z) : string :=
  match width with
  | O => EmptyString
  | S w => pad w (n / 10) +:+ String (digit n) EmptyString
  end.

(** Year, month and day of a day number counted from 1970-01-01. *)
Definition civil_from_days (z : Z) : Z * Z * Z :=
  let z := z + 719468 in
  let era := z / 146097 in
  let doe := z - era * 146097 in
  let yoe := (doe - doe / 1460 + doe / 36524 - doe / 146096) / 365 in
  let doy := doe - (365 * yoe + yoe / 4 - yoe / 100) in
  let mp := (5 * doy + 2) / 153 in
  let d := doy - (153 * mp + 2) / 5 + 1 in
  let m := if mp <? 10 then mp + 3 else mp - 9 in
  (yoe + era * 400 + (if m <=? 2 then 1 else 0), m, d).

Definition days_from_civil (y m d : Z) : Z :=
  let y := y - (if m <=? 2 then 1 else 0) in
  let era := y / 400 in
  let yoe := y - era * 400 in
  let doy := (153 * (if 2 <? m then m - 3 else m + 9) + 2) / 5 + d - 1 in
  let doe := yoe * 365 + yoe / 4 - yoe / 100 + doy in
  era * 146097 + doe - 719468.

Definition year_string (y : Z) : string :=
  if (0 <=? y) && (y <=? 9999) then pad 4 y
  else (if y <? 0 then "-" else "+") +:+ pad 6 (Z.abs y).

Definition iso_of_time (t : Z) : string :=
  let '(y, m, d) := civil_from_days (t / 86400000) in
  let ms := t mod 86400000 in
  year_string y +:+ "-" +:+ pad 2 m +:+ "-" +:+ pad 2 d +:+ "T"
    +:+ pad 2 (ms / 3600000) +:+ ":" +:+ pad 2 (ms / 60000 mod 60) +:+ ":"
    +:+ pad 2 (ms / 1000 mod 60) +:+ "." +:+ pad 3 (ms mod 1000) +:+ "Z".

Definition digit_value (c : ascii) : option Z :=
  let n := Z.of_nat (nat_of_ascii c) in
  if (48 <=? n) && (n <=? 57) then Some (n - 48) else None.

(** Reads exactly [width] digits. *)
Fixpoint digits (width : nat) (acc : Z) (s : string) : option (Z * string) :=
  match width, s with
  | O, _ => Some (acc, s)
  | S w, String c s' =>
      match digit_value c with
      | Some v => digits w (10 * acc + v) s'
      | None => None
      end
  | S _, EmptyString => None
  end.

Definition expect (c : ascii) (s : string) : option string :=
  match s with
  | String c' s' => if Ascii.eqb c c' then Some s' else None
  | EmptyString => None
  end.

Definition year_of (s : string) : option (Z * string) :=
  match s with
  | String "+" s' => digits 6 0 s'
  | String "-" s' =>
      match digits 6 0 s' with
      | Some (y, rest) => Some (- y, rest)
      | None => None
      end
  | _ => digits 4 0 s
  end.

(** The complete form [YYYY-MM-DDTHH:mm:ss.sssZ] and nothing else. *)
Definition time_of_iso (s : string) : option Z :=
  '(y, s) ← year_of s; s ← expect "-" s;
  '(m, s) ← digits 2 0 s; s ← expect "-" s;
  '(d, s) ← digits 2 0 s; s ← expect "T" s;
  '(hh, s) ← digits 2 0 s; s ← expect ":" s;
  '(mm, s) ← digits 2 0 s; s ← expect ":" s;
  '(ss, s) ← digits 2 0 s; s ← expect "." s;
  '(ms, s) ← digits 3 0 s; s ← expect "Z" s;
  let days := days_from_civil y m d in
  if String.eqb s "" && (hh <=? 23) && (mm <=? 59) && (ss <=? 59)
     && bool_decide (civil_from_days days = (y, m, d))
  then TimeClip (days * 86400000 + hh * 3600000 + mm * 60000 + ss * 1000 + ms)
  else None.

(** Signed decimal integers; the empty string is [0]. *)
Definition number_of_string (s : string) : num :=
  let unsigned s := fst <$> digits (String.length s) 0 s in
  match s with
  | String "-" s' => if String.eqb s' "" then None else Z.opp <$> unsigned s'
  | String "+" s' => if String.eqb s' "" then None else unsigned s'
  | _ => unsigned s
  end.

(** [Array.prototype.join] and [Object.prototype.toString]. *)
Fixpoint string_of (v : json) : string :=
  match v with
  | JNull => "null"
  | JBool b => if b then "true" else "false"
  | JNum n => pretty n
  | JStr s => s
  | JArr l =>
      (fix join (l : list json) : string :=
         match l with
         | [] => ""
         | x :: l' =>
             (match x with JNull => "" | _ => string_of x end)
             +:+ (match l' with [] => "" | _ => "," +:+ join l' end)
         end) l
  | JObj _ => "[object Object]"
  end.

Definition platform : Platform := {|
  Date_parse := time_of_iso;
  toISOString_of := iso_of_time;
  StringToNumber := number_of_string;
  ObjectToString := string_of
|}.

End Reference.

(* ===================================================================== *)
(** * Sample data *)
(* ===================================================================== *)

Module Sample.
Local Open Scope string_scope.

(** 2023-11-14T22:13:20.000Z *)
Definition T0 : Z := 1700000000000.
Definition hour : Z := 60 * 60 * 1000.

Definition live (id : string) (time : Date) (content : string)
    (replyTo : option string) (replyToMessage : option ReplySnapshot)
  : ChatMessage.t :=
  ChatMessage.mk id "alice" 1 content time text None None
                 replyTo replyToMessage.

Definition cached (id : string) (time : string) (content : string)
    (replyTo : option string) : CachedMessage.t :=
  CachedMessage.mk id "bob" 2 content time text None replyTo None.

(** The scenario of the specification: [m1] is cached, [m2] answers it. *)
Definition m1 : CachedMessage.t :=
  cached "m1" "2023-11-14T22:13:20.000Z" "hi" None.
Definition m2 : ChatMessage.t :=
  live "m2" (Some (T0 + 1000)) "hello back" (Some "m1") None.
(** A cached copy of [m2] that differs from the live one. *)
Definition m2_stale : CachedMessage.t :=
  cached "m2" "2023-11-14T22:13:21.000Z" "hello" (Some "m1").

(** Two live messages under one id, and a reply to that id. *)
Definition a_late : ChatMessage.t := live "a" (Some 2) "x" None None.
Definition a_early : ChatMessage.t := live "a" (Some 1) "y" None None.
Definition b : ChatMessage.t := live "b" (Some 3) "re" (Some "a") None.
Definition quote (content time : string) : ReplySnapshot :=
  mkSnapshot "a" "alice" content time.

(** A reply that arrives with a snapshot of a message nobody has. *)
Definition orphan : ChatMessage.t :=
  live "b1" (Some T0) "re" (Some "a1")
       (Some (mkSnapshot "a1" "carol" "gone" "2023-11-14T22:13:20.000Z")).

(** A message whose date is invalid. *)
Definition undated : ChatMessage.t := live "n" None "when?" None None.
Definition dated : ChatMessage.t := live "d" (Some 1) "now" None None.
(** A cached message whose timestamp is not a date. *)
Definition unparsed : CachedMessage.t := cached "u" "not a date" "when?" None.

Definition empty_store (now : Z) : World := mkWorld (Avail ∅ false) now.

(** A store holding one record for session [s1], written at [written]. *)
Definition record (written : string) (messages : list json) : json :=
  JObj [("sessionId", JStr "s1"); ("messages", JArr messages);
        ("lastUpdated", JStr written)].
Definition store_with (v : json) (now : Z) : World :=
  mkWorld (Avail {[getCacheKey "s1" := Json v]} false) now.

(** A participant record without [lastUpdated]. *)
Definition muted : list (string * json) := [("isMuted", JBool true)].
Definition state_store (now : Z) : World :=
  mkWorld (Avail {[stateKey "s" "p" := Json (JObj muted)]} false) now.

Definition mute : ParticipantState := mkState (Given true) Missing.
Definition kick : ParticipantState := mkState Missing (Given true).
End Sample.

(* ===================================================================== *)
(** * ResizableChatPanel.tsx: the caching effect *)
(* ===================================================================== *)

Section CachingEffect.
Context `{Platform}.

(** [addMessage(sessionId, message)] for any object [message] whose [id] is
    the string [id]: the source reads [message.id] and writes the object as
    it is, whatever properties it has beside those of [CachedMessage]. *)
Definition addMessage_any (sessionId id : string) (message : json) : M unit :=
  let! existingMessages := loadMessages sessionId in
  match existingMessages with
  | JArr existing =>
      let! exists_ := lift (find_id id existing) in
      if negb (truthy_opt exists_) then
        let updatedMessages := existing ++ [message] in
        saveMessages sessionId updatedMessages
      else ret tt
  | _ => throw TypeError
  end.

(** [{...msg, timestamp: msg.timestamp.toISOString()}], as
    [JSON.stringify] writes it: [mentions] goes along. *)
Definition cached_copy (msg : ChatMessage.t) : result json :=
  match toISOString (ChatMessage.timestamp msg) with
  | Throw e => Throw e
  | Ok iso =>
      Ok (JObj ([("id", JStr (ChatMessage.id msg));
                 ("senderAlias", JStr (ChatMessage.senderAlias msg));
                 ("senderAvatarIndex", JNum (ChatMessage.senderAvatarIndex msg));
                 ("content", JStr (ChatMessage.content msg));
                 ("timestamp", JStr iso);
                 ("type", json_of_type (ChatMessage.type msg))]
                ++ optional_prop "mentions" (fun l => JArr (JStr <$> l))
                     (ChatMessage.mentions msg)
                ++ optional_prop "attachment" (fun a => a)
                     (ChatMessage.attachment msg)
                ++ optional_prop "replyTo" JStr (ChatMessage.replyTo msg)
                ++ optional_prop "replyToMessage" json_of_snapshot
                     (ChatMessage.replyToMessage msg)))
  end.

(** The second effect:
    [enhancedMessages.forEach(msg => chatMessageCache.addMessage(...))]. *)
Definition cacheMessages (sessionId : string)
    (enhancedMessages : list ChatMessage.t) : M unit :=
  forEach (fun msg =>
             let! copy := lift (cached_copy msg) in
             addMessage_any sessionId (ChatMessage.id msg) copy)
          enhancedMessages.
End CachingEffect.

(* ===================================================================== *)
(** * More vocabulary *)
(* ===================================================================== *)

Section MoreVocabulary.
Context `{Platform}.

(** The [id] of a stored message, when it is a string. *)
Definition value_id (v : json) : option string :=
  match v with
  | JObj o => match obj_get "id" o with
              | Some (JStr s) => Some s
              | _ => None
              end
  | _ => None
  end.

(** The ids of a stored sequence, in its order. *)
Definition stored_ids (l : list json) : list string := omap value_id l.

(** The store takes writes and, read now, gives the sequence [existing] for
    the session without changing; no entry of it is [null]; the platform
    reads back the ISO date of the current clock reading. *)
Definition settled (sessionId : string) (existing : list json) (w : World)
  : Prop :=
  (∃ items, localStorage w = Avail items false)
  ∧ loadMessages sessionId w = (Ok (JArr existing), w)
  ∧ Forall (fun m => m ≠ JNull) existing
  ∧ Date_parse (toISOString_of (clock w)) = Some (clock w).

(** The same store, read when the clock shows [later]. *)
Definition at_time (later : Z) (w : World) : World :=
  mkWorld (localStorage w) later.


(** What a flag of the update makes of the stored property. *)
Definition merge_flag (f : flag) (old : option json) : option json :=
  match f with
  | Missing => old
  | Undefined => None
  | Given b => Some (JBool b)
  end.

(** Every reply of [all] that resolves in [map] names a dated message. *)
Definition targets_dated (map : gmap string ChatMessage.t)
    (all : list ChatMessage.t) : Prop :=
  ∀ m tgt, m ∈ all → reply_target map m = Some tgt →
           is_Some (ChatMessage.timestamp tgt).
End MoreVocabulary.

(* ===================================================================== *)
(** * ResizableChatPanel.tsx: the state of the panel and its handlers *)
(* ===================================================================== *)

(** [String.prototype.trim], which the platform provides. *)
Class Trim : Type := trim : string -> string.

(** A [File], of which the panel reads the [name]. *)
Module File.
Record t : Type := mk {
  name : string;
  type : string;
  size : Z
}.
End File.

(** A [FormData]: its entries in the order of the [append]s. *)
Definition FormData : Type := list (string * File.t).

(** One call [onSendMessage(content, type, attachment, replyTo)] of the
    callback the panel is given; [attachment] is [null] or a [FormData],
    [replyTo] is [undefined] or an id. *)
Record Sent : Type := mkSent {
  sent_content : string;
  sent_type : MessageType;
  sent_attachment : option FormData;
  sent_replyTo : option string
}.

(** The [useState] cells of the component that its handlers write. Widths
    and pointer coordinates are whole pixels. *)
Record Panel : Type := mkPanel {
  newMessage : string;
  selectedFile : option File.t;
  showMediaPreview : bool;
  replyingTo : option ChatMessage.t;
  isFullScreen : bool;
  chatWidth : Z;
  isResizing : bool
}.

(** The first render: the arguments of the [useState] calls. *)
Definition initial : Panel :=
  mkPanel "" None false None false 400 false.

(** A handler runs in the closure of one render: it reads the state of that
    render, queues writes that take effect in their order, and may call
    [onSendMessage]. A [Handler] maps the pending state to the calls made
    and the pending state after. *)
Definition Handler : Type := Panel -> list Sent * Panel.

Definition skip : Handler := fun p => ([], p).

Definition and_then (h k : Handler) : Handler :=
  fun p => let '(s1, p1) := h p in
           let '(s2, p2) := k p1 in
           (s1 ++ s2, p2).

Infix ">>" := and_then (at level 61, left associativity).

Definition onSendMessage (content : string) (type : MessageType)
    (attachment : option FormData) (replyTo : option string) : Handler :=
  fun p => ([mkSent content type attachment replyTo], p).

Definition setNewMessage (v : string) : Handler :=
  fun p => ([], mkPanel v (selectedFile p) (showMediaPreview p) (replyingTo p)
                        (isFullScreen p) (chatWidth p) (isResizing p)).

Definition setSelectedFile (v : option File.t) : Handler :=
  fun p => ([], mkPanel (newMessage p) v (showMediaPreview p) (replyingTo p)
                        (isFullScreen p) (chatWidth p) (isResizing p)).

Definition setShowMediaPreview (v : bool) : Handler :=
  fun p => ([], mkPanel (newMessage p) (selectedFile p) v (replyingTo p)
                        (isFullScreen p) (chatWidth p) (isResizing p)).

Definition setReplyingTo (v : option ChatMessage.t) : Handler :=
  fun p => ([], mkPanel (newMessage p) (selectedFile p) (showMediaPreview p) v
                        (isFullScreen p) (chatWidth p) (isResizing p)).

Definition setIsFullScreen (v : bool) : Handler :=
  fun p => ([], mkPanel (newMessage p) (selectedFile p) (showMediaPreview p)
                        (replyingTo p) v (chatWidth p) (isResizing p)).

Definition setChatWidth (v : Z) : Handler :=
  fun p => ([], mkPanel (newMessage p) (selectedFile p) (showMediaPreview p)
                        (replyingTo p) (isFullScreen p) v (isResizing p)).

Definition setIsResizing (v : bool) : Handler :=
  fun p => ([], mkPanel (newMessage p) (selectedFile p) (showMediaPreview p)
                        (replyingTo p) (isFullScreen p) (chatWidth p) v).

(** [!!o] for an object or [null]. *)
Definition given {A} (o : option A) : bool :=
  match o with
  | Some _ => true
  | None => false
  end.

(** What the user and the children of the panel can do to it. *)
Inductive Event : Type :=
  | MouseDown
  | MouseMove (innerWidth clientX : Z)
  | MouseUp
  | Change (value : string)
  | KeyPress (key : string) (shiftKey : bool)
  | ClickSend
  | FileChange (files : option (list File.t))
  | PreviewClose
  | PreviewSend (file : File.t)
  | ClickFullScreen
  | ClickCancelReply
  | ClickReply (message : ChatMessage.t).

Section Handlers.
Context `{Trim}.

(** The panel as rendered, [r], is what the closures of the handlers
    read. *)
Variable r : Panel.

Definition handleMouseDown : Handler :=
  setIsResizing true.

Definition handleMouseMove (innerWidth clientX : Z) : Handler :=
  if negb (isResizing r) then skip
  else
    let newWidth := Z.max 300 (Z.min 800 (innerWidth - clientX)) in
    setChatWidth newWidth.

Definition handleMouseUp : Handler :=
  setIsResizing false.

(** [!newMessage.trim() && !selectedFile], the test of [handleSendMessage]
    and of the [disabled] of the send button. *)
Definition nothing_to_send : bool :=
  negb (truthy (JStr (trim (newMessage r)))) && negb (given (selectedFile r)).

Definition handleSendMessage : Handler :=
  if nothing_to_send then skip
  else
    let content := newMessage r in
    let attachment := None in
    let '(attachment, content) :=
      match selectedFile r with
      | Some selected =>
          let formData := [("media", selected)] in
          (Some formData, File.name selected)
      | None => (attachment, content)
      end in
    onSendMessage content
                  (if given (selectedFile r) then media else text)
                  attachment
                  (ChatMessage.id <$> replyingTo r) >>
    setNewMessage "" >>
    setSelectedFile None >>
    setReplyingTo None >>
    setShowMediaPreview false.

(** [event.target.files?.[0]] *)
Definition first_file (files : option (list File.t)) : option File.t :=
  match files with
  | Some (file :: _) => Some file
  | _ => None
  end.

Definition handleFileSelect (files : option (list File.t)) : Handler :=
  match first_file files with
  | Some file => setSelectedFile (Some file) >> setShowMediaPreview true
  | None => skip
  end.

(** The preview is rendered when [showMediaPreview && selectedFile]. *)
Definition preview_rendered : bool :=
  showMediaPreview r && given (selectedFile r).

Definition onClose : Handler :=
  setShowMediaPreview false >> setSelectedFile None.

Definition onSend (file : File.t) : Handler :=
  setSelectedFile (Some file) >>
  setShowMediaPreview false >>
  handleSendMessage.

Definition onKeyPress (key : string) (shiftKey : bool) : Handler :=
  if String.eqb key "Enter" && negb shiftKey then handleSendMessage
  else skip.

(** The reply button is rendered with the messages that are neither
    system messages nor reactions. *)
Definition reply_rendered (message : ChatMessage.t) : bool :=
  match ChatMessage.type message with
  | system | emoji_reaction => false
  | _ => true
  end.

(** The handler an event reaches: none where the element is not rendered,
    the button is disabled or the listener is not registered. *)
Definition handler (e : Event) : Handler :=
  match e with
  | MouseDown =>
      if isFullScreen r then skip else handleMouseDown
  | MouseMove innerWidth clientX =>
      if isResizing r then handleMouseMove innerWidth clientX else skip
  | MouseUp =>
      if isResizing r then handleMouseUp else skip
  | Change value => setNewMessage value
  | KeyPress key shiftKey => onKeyPress key shiftKey
  | ClickSend =>
      if nothing_to_send then skip else handleSendMessage
  | FileChange files => handleFileSelect files
  | PreviewClose =>
      if preview_rendered then onClose else skip
  | PreviewSend file =>
      if preview_rendered then onSend file else skip
  | ClickFullScreen => setIsFullScreen (negb (isFullScreen r))
  | ClickCancelReply =>
      if given (replyingTo r) then setReplyingTo None else skip
  | ClickReply message =>
      if reply_rendered message then setReplyingTo (Some message) else skip
  end.
End Handlers.

Section Events.
Context `{Trim}.

(** One event: its handler runs in the closure of the render of [p], and
    the writes it queued make the next state. *)
Definition step (p : Panel) (e : Event) : list Sent * Panel :=
  handler p e p.

(** A sequence of events, each on the render the one before left. *)
Fixpoint run (p : Panel) (es : list Event) : list Sent * Panel :=
  match es with
  | [] => ([], p)
  | e :: es =>
      let '(s1, p1) := step p e in
      let '(s2, p2) := run p1 es in
      (s1 ++ s2, p2)
  end.

(** The composer as [handleSendMessage] leaves it. *)
Definition cleared (p : Panel) : Panel :=
  mkPanel "" None false None (isFullScreen p) (chatWidth p) (isResizing p).

(** The call [handleSendMessage] makes for a text. *)
Definition text_message (p : Panel) : Sent :=
  mkSent (newMessage p) text None (ChatMessage.id <$> replyingTo p).

(** The call [handleSendMessage] makes for a file. *)
Definition media_message (p : Panel) (file : File.t) : Sent :=
  mkSent (File.name file) media (Some [("media", file)])
         (ChatMessage.id <$> replyingTo p).
End Events.

(** A [trim] for strings of Latin-1 code units, for examples. *)
Module ReferenceTrim.
Definition is_white_space (c : ascii) : bool :=
  let n := N_of_ascii c in
  ((9 <=? n) && (n <=? 13) || (n =? 32) || (n =? 160))%N.

Fixpoint trimStart (s : string) : string :=
  match s with
  | String c s' => if is_white_space c then trimStart s' else s
  | EmptyString => EmptyString
  end.

Definition trimEnd (s : string) : string :=
  String.rev (trimStart (String.rev s)).

Definition trim_latin1 : Trim := fun s => trimEnd (trimStart s).
End ReferenceTrim.

Module PanelSample.
Definition photo : File.t := File.mk "photo.png" "image/png" 2048.
Definition other : File.t := File.mk "other.pdf" "application/pdf" 4096.

Definition typing : Panel :=
  mkPanel "hello" None false (Some Sample.m2) false 400 false.

Definition previewing : Panel :=
  mkPanel "see this" (Some photo) true None false 400 false.

Definition dragging : Panel :=
  mkPanel "" None false None false 400 true.
End PanelSample.

(* ===================================================================== *)
(** * Facts about the sort *)
(* ===================================================================== *)

Section SortFacts.
Context {A : Type} (comparefn : A -> A -> num).

Lemma insert_sorted_Permutation x l :
  insert_sorted comparefn x l ≡ₚ x :: l.
Proof.
  induction l as [|y l IH]; simpl; [done|].
  destruct (SortCompare comparefn x y <=? 0); [done|].
  rewrite IH. apply Permutation_swap.
Qed.

Lemma sort_Permutation l : sort comparefn l ≡ₚ l.
Proof.
  induction l as [|x l IH]; simpl; [done|].
  by rewrite insert_sorted_Permutation, IH.
Qed.

(** Where the comparator is the difference of a key, the sort is the stable
    sort by that key. *)
Context (key : A -> Z) (keyed : A -> Prop).
Hypothesis comparefn_keyed :
  ∀ x y, keyed x → keyed y → comparefn x y = Some (key x - key y).

Lemma SortCompare_keyed x y :
  keyed x → keyed y → SortCompare comparefn x y = key x - key y.
Proof. intros Hx Hy. unfold SortCompare. by rewrite comparefn_keyed. Qed.

Lemma insert_sorted_Sorted x l :
  keyed x → Forall keyed l →
  Sorted (fun a b => key a <= key b) l →
  Sorted (fun a b => key a <= key b) (insert_sorted comparefn x l).
Proof.
  intros Hx Hl Hs. induction Hs as [|y l Hs IH Hhd]; simpl.
  - repeat constructor.
  - apply Forall_cons in Hl as [Hy Hl].
    rewrite (SortCompare_keyed x y Hx Hy).
    destruct (Z.leb_spec (key x - key y) 0) as [Hle|Hgt].
    + constructor; [by constructor|]. constructor. lia.
    + constructor; [by apply IH|].
      destruct Hhd as [|z l Hyz]; simpl.
      * constructor. lia.
      * apply Forall_cons in Hl as [Hz _].
        rewrite (SortCompare_keyed x z Hx Hz).
        destruct (key x - key z <=? 0); constructor; lia.
Qed.

Lemma sort_keyed l : Forall keyed l → Forall keyed (sort comparefn l).
Proof. intros Hl. by rewrite sort_Permutation. Qed.

Lemma sort_Sorted l :
  Forall keyed l → Sorted (fun a b => key a <= key b) (sort comparefn l).
Proof.
  induction l as [|x l IH]; simpl; intros Hl; [constructor|].
  apply Forall_cons in Hl as [Hx Hl].
  apply insert_sorted_Sorted; auto using sort_keyed.
Qed.

Lemma insert_sorted_filter (P : A -> Prop) `{!∀ a, Decision (P a)} x l :
  (∀ a b, P a → P b → key a = key b) →
  keyed x → Forall keyed l →
  filter P (insert_sorted comparefn x l) = filter P (x :: l).
Proof.
  intros HP Hx Hl. induction Hl as [|y l Hy Hl IH]; simpl; [done|].
  rewrite (SortCompare_keyed x y Hx Hy).
  destruct (Z.leb_spec (key x - key y) 0) as [Hle|Hgt]; [done|].
  rewrite filter_cons, IH, !filter_cons.
  destruct (decide (P y)) as [Py|]; destruct (decide (P x)) as [Px|]; try done.
  specialize (HP _ _ Px Py). lia.
Qed.

(** Stability: the entries that share a key keep their relative order. *)
Lemma sort_filter (P : A -> Prop) `{!∀ a, Decision (P a)} l :
  (∀ a b, P a → P b → key a = key b) →
  Forall keyed l →
  filter P (sort comparefn l) = filter P l.
Proof.
  intros HP Hl. induction Hl as [|x l Hx Hl IH]; simpl; [done|].
  rewrite insert_sorted_filter by auto using sort_keyed.
  by rewrite !filter_cons, IH.
Qed.

Lemma sort_fixed l :
  Forall keyed l → Sorted (fun a b => key a <= key b) l →
  sort comparefn l = l.
Proof.
  intros Hl Hs. induction Hs as [|x l Hs IH Hhd]; simpl; [done|].
  apply Forall_cons in Hl as [Hx Hl]. rewrite IH by done.
  destruct Hhd as [|y l Hxy]; simpl; [done|].
  apply Forall_cons in Hl as [Hy _].
  rewrite (SortCompare_keyed x y Hx Hy).
  destruct (Z.leb_spec (key x - key y) 0); [done|lia].
Qed.
End SortFacts.

Section MapM.
Context {A B : Type} (f : A -> result B).

Lemma mapM_Ok xs ys :
  mapM f xs = Ok ys ↔ Forall2 (fun x y => f x = Ok y) xs ys.
Proof.
  revert ys. induction xs as [|x xs IH]; intros ys; simpl.
  - split; [intros [= <-]; constructor | by inversion 1].
  - split.
    + destruct (f x) as [y|] eqn:Hx; [|done].
      destruct (mapM f xs) as [ys'|] eqn:Hxs; [|done].
      intros [= <-]. constructor; [done|]. by apply IH.
    + inversion 1 as [|? y ? ys' Hx Hxs]; subst.
      apply IH in Hxs. by rewrite Hx, Hxs.
Qed.

Lemma mapM_total xs :
  Forall (fun x => ∃ y, f x = Ok y) xs → ∃ ys, mapM f xs = Ok ys.
Proof.
  induction 1 as [|x xs [y Hy] _ [ys Hys]]; simpl; [by eexists|].
  rewrite Hy, Hys. by eexists.
Qed.
End MapM.

Section Forall2Membership.
Context {A B : Type} (P : A -> B -> Prop).

Lemma Forall2_elem_of_l l k x :
  Forall2 P l k → x ∈ l → ∃ y, y ∈ k ∧ P x y.
Proof.
  induction 1 as [|a b l k Hab _ IH]; [by intros ?%elem_of_nil|].
  intros [->|Hx]%elem_of_cons.
  - exists b. split; [left|done].
  - destruct (IH Hx) as (y & ? & ?). exists y. split; [by right|done].
Qed.

Lemma Forall2_elem_of_r l k y :
  Forall2 P l k → y ∈ k → ∃ x, x ∈ l ∧ P x y.
Proof.
  induction 1 as [|a b l k Hab _ IH]; [by intros ?%elem_of_nil|].
  intros [->|Hy]%elem_of_cons.
  - exists a. split; [left|done].
  - destruct (IH Hy) as (x & ? & ?). exists x. split; [by right|done].
Qed.
End Forall2Membership.

Lemma mapM_fixed {A} (f : A -> result A) xs :
  Forall (fun x => f x = Ok x) xs → mapM f xs = Ok xs.
Proof. intros Hxs. apply mapM_Ok. by apply Forall_Forall2_diag. Qed.

Section EnrichmentFacts.
Context `{Platform}.
Implicit Types (live all out : list ChatMessage.t)
               (cached : list CachedMessage.t) (msg m : ChatMessage.t).

(** ** The union *)

Lemma existsb_id all (i : string) :
  existsb (fun m => String.eqb (ChatMessage.id m) i) all = true
  ↔ i ∈ ChatMessage.id <$> all.
Proof.
  rewrite existsb_exists, list_elem_of_fmap. split.
  - intros (m & Hm%list_elem_of_In & Heq%String.eqb_eq). eauto.
  - intros (m & -> & Hm%list_elem_of_In). exists m.
    by rewrite String.eqb_refl.
Qed.

Lemma push_cached_spec all c :
  push_cached all c =
  all ++ (if decide (CachedMessage.id c ∈ ChatMessage.id <$> all)
          then [] else [of_cached c]).
Proof.
  unfold push_cached.
  destruct (existsb _ all) eqn:He; case_decide as Hin.
  - by rewrite app_nil_r.
  - by apply existsb_id in He.
  - apply existsb_id in Hin. congruence.
  - done.
Qed.

(** The live messages come first, untouched; what follows was cached. *)
Lemma allMessages_app live cached :
  ∃ extra, allMessages live cached = live ++ extra
           ∧ Forall (fun m => ∃ c, c ∈ cached ∧ m = of_cached c) extra.
Proof.
  unfold allMessages. revert live.
  induction cached as [|c cached IH]; intros live; simpl.
  - exists []. by rewrite app_nil_r.
  - destruct (IH (push_cached live c)) as (extra & -> & Hextra).
    rewrite push_cached_spec, <- app_assoc. eexists; split; [done|].
    apply Forall_app; split.
    + case_decide; constructor; [|done]. exists c. split; [left|done].
    + eapply Forall_impl; [done|]. intros m (c' & ? & ->).
      exists c'. split; [by right|done].
Qed.

Lemma allMessages_live live cached m :
  m ∈ live → m ∈ allMessages live cached.
Proof.
  destruct (allMessages_app live cached) as (extra & -> & _).
  intros. apply elem_of_app. by left.
Qed.

Lemma allMessages_ids live cached (i : string) :
  i ∈ ChatMessage.id <$> allMessages live cached
  ↔ i ∈ ChatMessage.id <$> live ∨ i ∈ CachedMessage.id <$> cached.
Proof.
  unfold allMessages. revert live.
  induction cached as [|c cached IH]; intros live; simpl.
  - rewrite elem_of_nil. tauto.
  - rewrite IH, push_cached_spec, fmap_app, elem_of_app, elem_of_cons.
    case_decide as Hin; simpl.
    + rewrite elem_of_nil. split; [tauto|].
      intros [?|[->|?]]; auto.
    + rewrite list_elem_of_singleton. tauto.
Qed.

Lemma allMessages_NoDup live cached :
  NoDup (ChatMessage.id <$> live) →
  NoDup (ChatMessage.id <$> allMessages live cached).
Proof.
  unfold allMessages. revert live.
  induction cached as [|c cached IH]; intros live Hnd; simpl; [done|].
  apply IH. rewrite push_cached_spec, fmap_app.
  case_decide as Hin; simpl; [by rewrite app_nil_r|].
  apply NoDup_app. split_and!; [done| |apply NoDup_singleton].
  intros i Hi ->%list_elem_of_singleton. done.
Qed.

(** ** The lookup table *)

Lemma set_all_fresh all init (i : string) :
  i ∉ ChatMessage.id <$> all → set_all all init !! i = init !! i.
Proof.
  revert init. induction all as [|m all IH]; intros init Hi; simpl; [done|].
  rewrite fmap_cons, not_elem_of_cons in Hi. destruct Hi as [Hne Hi].
  unfold set_all in *; simpl. rewrite IH by done. by rewrite lookup_insert_ne.
Qed.

Lemma set_all_Some all init (i : string) m :
  set_all all init !! i = Some m →
  (m ∈ all ∧ ChatMessage.id m = i) ∨ init !! i = Some m.
Proof.
  revert init. induction all as [|x all IH]; intros init; simpl; [auto|].
  intros [[Hm Hi]|Hinit]%IH.
  - left. split; [by right|done].
  - destruct (decide (ChatMessage.id x = i)) as [<-|Hne].
    + rewrite lookup_insert_eq in Hinit. injection Hinit as <-.
      left. split; [left|done].
    + rewrite lookup_insert_ne in Hinit by done. by right.
Qed.

Lemma set_all_is_Some all init (i : string) :
  i ∈ ChatMessage.id <$> all → is_Some (set_all all init !! i).
Proof.
  revert init. induction all as [|x all IH]; intros init; simpl.
  - by intros ?%elem_of_nil.
  - intros Hi. destruct (decide (i ∈ ChatMessage.id <$> all)) as [Hin|Hout].
    + by apply IH.
    + apply elem_of_cons in Hi as [->|?]; [|done].
      fold (set_all all (<[ChatMessage.id x:=x]> init)).
      rewrite set_all_fresh by done. rewrite lookup_insert_eq. by eexists.
Qed.

Lemma messageMap_Some all (i : string) m :
  messageMap all !! i = Some m → m ∈ all ∧ ChatMessage.id m = i.
Proof. intros [?|?]%set_all_Some; [done|by rewrite lookup_empty in *]. Qed.

Lemma messageMap_is_Some all (i : string) :
  is_Some (messageMap all !! i) ↔ i ∈ ChatMessage.id <$> all.
Proof.
  split; [|apply set_all_is_Some].
  intros [m [Hm <-]%messageMap_Some]. apply list_elem_of_fmap; eauto.
Qed.

Lemma messageMap_NoDup all m :
  NoDup (ChatMessage.id <$> all) → m ∈ all →
  messageMap all !! ChatMessage.id m = Some m.
Proof.
  unfold messageMap. generalize (∅ : gmap string ChatMessage.t).
  induction all as [|x all IH]; intros init Hnd Hm; simpl.
  - by apply elem_of_nil in Hm.
  - rewrite fmap_cons in Hnd. apply NoDup_cons in Hnd as [Hx Hnd].
    apply elem_of_cons in Hm as [->|Hm]; [|by apply IH].
    fold (set_all all (<[ChatMessage.id x:=x]> init)).
    rewrite set_all_fresh by done. apply lookup_insert_eq.
Qed.
End EnrichmentFacts.

Section EnhanceFacts.
Context `{Platform}.
Implicit Types (live all out : list ChatMessage.t)
               (cached : list CachedMessage.t) (msg m : ChatMessage.t).

(** ** Link resolution *)

Lemma reply_target_Some map msg tgt :
  reply_target map msg = Some tgt
  ↔ ∃ r, ChatMessage.replyTo msg = Some r ∧ r ≠ ""%string ∧ map !! r = Some tgt.
Proof.
  unfold reply_target. destruct (ChatMessage.replyTo msg) as [r|].
  - destruct (String.eqb_spec r "") as [->|Hne].
    + split; [done|]. by intros (? & [= <-] & ? & _).
    + split; [by exists r|]. by intros (? & [= <-] & _ & ?).
  - split; [done|]. by intros (? & ? & _).
Qed.

Lemma reply_target_resolvable live cached msg :
  is_Some (reply_target (messageMap (allMessages live cached)) msg)
  ↔ resolvable live cached msg.
Proof.
  unfold resolvable. split.
  - intros [tgt (r & Hr & Hne & Hlook)%reply_target_Some].
    exists r. split_and!; [done..|].
    apply allMessages_ids, messageMap_is_Some. by eexists.
  - intros (r & Hr & Hne & Hin).
    apply allMessages_ids, messageMap_is_Some in Hin as [tgt Htgt].
    exists tgt. apply reply_target_Some. eauto.
Qed.

Lemma enhance_Ok map msg msg' :
  enhance map msg = Ok msg'
  ↔ (reply_target map msg = None ∧ msg' = msg)
    ∨ (∃ tgt r, reply_target map msg = Some tgt ∧ snapshot_of tgt = Ok r
                ∧ msg' = ChatMessage.with_replyToMessage msg r).
Proof.
  unfold enhance. destruct (reply_target map msg) as [tgt|].
  - destruct (snapshot_of tgt) as [r|e] eqn:Hsnap.
    + split.
      * intros [= <-]. right. by exists tgt, r.
      * intros [[? _]|(? & ? & [= <-] & Hr & ->)]; [done|].
        rewrite Hsnap in Hr. by injection Hr as <-.
    + split; [done|].
      intros [[? _]|(? & ? & [= <-] & Hr & _)]; [done|]. congruence.
  - split.
    + intros [= <-]. by left.
    + intros [[_ ->]|(? & ? & ? & _)]; done.
Qed.

(** Enrichment touches the snapshot and nothing else. *)
Lemma enhance_fields map msg msg' :
  enhance map msg = Ok msg' →
  msg' = msg ∨ ∃ r, msg' = ChatMessage.with_replyToMessage msg r.
Proof. intros [[_ ->]|(? & r & _ & _ & ->)]%enhance_Ok; eauto. Qed.

Lemma enhance_id map msg msg' :
  enhance map msg = Ok msg' → ChatMessage.id msg' = ChatMessage.id msg.
Proof. by intros [->|[r ->]]%enhance_fields. Qed.

Lemma enhance_timestamp map msg msg' :
  enhance map msg = Ok msg' →
  ChatMessage.timestamp msg' = ChatMessage.timestamp msg.
Proof. by intros [->|[r ->]]%enhance_fields. Qed.

Lemma enhance_replyTo map msg msg' :
  enhance map msg = Ok msg' →
  ChatMessage.replyTo msg' = ChatMessage.replyTo msg.
Proof. by intros [->|[r ->]]%enhance_fields. Qed.

Lemma snapshot_of_enhance map msg msg' :
  enhance map msg = Ok msg' → snapshot_of msg' = snapshot_of msg.
Proof. by intros [->|[r ->]]%enhance_fields. Qed.

Lemma snapshot_of_valid msg :
  is_Some (ChatMessage.timestamp msg) → ∃ r, snapshot_of msg = Ok r.
Proof. intros [t Ht]. unfold snapshot_of. rewrite Ht. simpl. by eexists. Qed.

Lemma enhanced_Ok live cached pre :
  enhanced live cached = Ok pre
  ↔ Forall2 (fun m m' =>
               enhance (messageMap (allMessages live cached)) m = Ok m')
            (allMessages live cached) pre.
Proof. apply mapM_Ok. Qed.

Lemma enrich_Ok live cached out :
  enrich live cached = Ok out
  ↔ ∃ pre, enhanced live cached = Ok pre ∧ out = sort by_timestamp pre.
Proof.
  unfold enrich. destruct (enhanced live cached) as [pre|e].
  - split; [intros [= <-]; by exists pre | by intros (? & [= <-] & ->)].
  - split; [done | by intros (? & ? & _)].
Qed.

Lemma Forall2_enhance_ids map all pre :
  Forall2 (fun m m' => enhance map m = Ok m') all pre →
  ChatMessage.id <$> pre = ChatMessage.id <$> all.
Proof.
  induction 1 as [|m m' all pre Hm _ IH]; csimpl; [done|].
  by rewrite IH, (enhance_id _ _ _ Hm).
Qed.

(** Each entry of the output is the enrichment of an entry of the union,
    and each entry of the union has its enrichment in the output. *)
Lemma enrich_elem_of live cached out :
  enrich live cached = Ok out →
  (∀ m', m' ∈ out → ∃ m, m ∈ allMessages live cached
      ∧ enhance (messageMap (allMessages live cached)) m = Ok m')
  ∧ (∀ m, m ∈ allMessages live cached → ∃ m', m' ∈ out
      ∧ enhance (messageMap (allMessages live cached)) m = Ok m').
Proof.
  intros (pre & Hpre%enhanced_Ok & ->)%enrich_Ok. split.
  - intros m' Hm'. rewrite sort_Permutation in Hm'.
    destruct (Forall2_elem_of_r _ _ _ _ Hpre Hm') as (m & ? & ?). eauto.
  - intros m Hm.
    destruct (Forall2_elem_of_l _ _ _ _ Hpre Hm) as (m' & ? & ?).
    exists m'. by rewrite sort_Permutation.
Qed.

Lemma enrich_ids live cached out :
  enrich live cached = Ok out →
  ChatMessage.id <$> out ≡ₚ ChatMessage.id <$> allMessages live cached.
Proof.
  intros (pre & Hpre%enhanced_Ok & ->)%enrich_Ok.
  by rewrite sort_Permutation, (Forall2_enhance_ids _ _ _ Hpre).
Qed.

(** ** Valid timestamps *)

Lemma allMessages_valid live cached :
  valid_timestamps live cached →
  Forall (fun m => is_Some (ChatMessage.timestamp m)) (allMessages live cached).
Proof.
  intros [Hlive Hcached].
  destruct (allMessages_app live cached) as (extra & -> & Hextra).
  apply Forall_app; split; [done|].
  eapply Forall_impl; [done|]. intros m (c & Hc & ->). simpl.
  by eapply Forall_forall in Hcached.
Qed.

Lemma enhanced_total live cached :
  valid_timestamps live cached → ∃ pre, enhanced live cached = Ok pre.
Proof.
  intros Hvalid%allMessages_valid. apply mapM_total.
  apply Forall_forall. intros m Hm. unfold enhance.
  destruct (reply_target _ m) as [tgt|] eqn:Htgt; [|by eexists].
  apply reply_target_Some in Htgt as (r & _ & _ & [Htgt _]%messageMap_Some).
  rewrite Forall_forall in Hvalid.
  destruct (snapshot_of_valid tgt) as [s ->]; by eauto.
Qed.

Lemma Forall2_enhance_valid map all pre :
  Forall2 (fun m m' => enhance map m = Ok m') all pre →
  Forall (fun m => is_Some (ChatMessage.timestamp m)) all →
  Forall (fun m => is_Some (ChatMessage.timestamp m)) pre.
Proof.
  induction 1 as [|m m' all pre Hm _ IH]; [done|].
  intros [Hv Hvalid]%Forall_cons.
  constructor; [|by apply IH]. by rewrite (enhance_timestamp _ _ _ Hm).
Qed.

Lemma enhanced_valid live cached pre :
  valid_timestamps live cached → enhanced live cached = Ok pre →
  Forall (fun m => is_Some (ChatMessage.timestamp m)) pre.
Proof.
  intros Hvalid%allMessages_valid Hpre%enhanced_Ok.
  by eapply Forall2_enhance_valid.
Qed.

(** On valid dates the comparator is the difference of the time values. *)
Lemma by_timestamp_keyed a b :
  is_Some (ChatMessage.timestamp a) → is_Some (ChatMessage.timestamp b) →
  by_timestamp a b = Some (time_of a - time_of b).
Proof. intros [x Hx] [y Hy]. unfold by_timestamp, time_of. by rewrite Hx, Hy. Qed.

Lemma chronological_valid l :
  Forall (fun m => is_Some (ChatMessage.timestamp m)) l →
  Sorted (fun a b => time_of a <= time_of b) l ↔ chronological l.
Proof.
  unfold chronological. intros Hl.
  induction Hl as [|m l [t Ht] Hl IH].
  - split; constructor.
  - split; inversion 1 as [|? ? Hs Hhd]; subst; (constructor; [by apply IH|]);
      destruct Hhd as [|m2 l2 Hle]; constructor;
      apply Forall_cons in Hl as [[t2 Ht2] _];
      unfold time_of in *; rewrite Ht, Ht2 in *; simpl in *.
    + by apply Is_true_true, Z.leb_le.
    + by apply Is_true_true, Z.leb_le in Hle.
Qed.
End EnhanceFacts.

Section EnrichmentTheorems.
Context `{Platform}.
Implicit Types (live all out : list ChatMessage.t)
               (cached : list CachedMessage.t) (msg m : ChatMessage.t).

Lemma enrich_NoDup live cached out :
  NoDup (ChatMessage.id <$> live) → enrich live cached = Ok out →
  NoDup (ChatMessage.id <$> out).
Proof.
  intros Hnd Hout. rewrite (enrich_ids _ _ _ Hout).
  by apply allMessages_NoDup.
Qed.

Lemma enrich_total live cached :
  valid_timestamps live cached → ∃ out, enrich live cached = Ok out.
Proof.
  intros [pre Hpre]%enhanced_total. unfold enrich. rewrite Hpre. by eexists.
Qed.

(** C1 (amended).  When no two live messages share an id, the enrichment
    pass completes as soon as every timestamp is a valid date, and whenever
    it completes its output has exactly one entry per distinct id of the
    live and the cached messages together.  An entry under the id of a live
    message is that live message, equal to it in every field but
    [replyToMessage], which the pass may have replaced by the snapshot it
    computed: the cached duplicate does not reach the output. *)
Theorem enrich_one_entry_per_id live cached :
  NoDup (ChatMessage.id <$> live) →
  (valid_timestamps live cached → ∃ out, enrich live cached = Ok out) ∧
  ∀ out, enrich live cached = Ok out →
    NoDup (ChatMessage.id <$> out) ∧
    (∀ i, i ∈ ChatMessage.id <$> out
          ↔ i ∈ ChatMessage.id <$> live ∨ i ∈ CachedMessage.id <$> cached) ∧
    (∀ m m', m ∈ live → m' ∈ out → ChatMessage.id m' = ChatMessage.id m →
             m' = m ∨ ∃ r, m' = ChatMessage.with_replyToMessage m r).
Proof.
  intros Hnd. split; [apply enrich_total|]. intros out Hout. split_and!.
  - by eapply enrich_NoDup.
  - intros i. rewrite (enrich_ids _ _ _ Hout). apply allMessages_ids.
  - intros m m' Hm Hm' Hid.
    destruct (enrich_elem_of _ _ _ Hout) as [Hfrom _].
    destruct (Hfrom m' Hm') as (x & Hx & Henh).
    assert (x = m) as ->; [|by eapply enhance_fields].
    pose proof (allMessages_NoDup live cached Hnd) as Hall.
    pose proof (messageMap_NoDup _ x Hall Hx) as Hlx.
    pose proof (messageMap_NoDup _ m Hall (allMessages_live _ cached _ Hm)) as Hlm.
    rewrite <- (enhance_id _ _ _ Henh), Hid, Hlm in Hlx. by injection Hlx.
Qed.

(** C2 (amended).  Every message [m'] of the output is a message [m] of
    the union, treated as follows.  If [m.replyTo] is set, not empty, and
    names a message of the union, then [m'] is [m] with the snapshot of that
    message ([id], [senderAlias], [content], ISO [timestamp]) as its
    [replyToMessage].  Otherwise [m'] is [m] unchanged, so that it keeps the
    [replyToMessage] it arrived with, if any.  Hence a snapshot is present on
    [m'] exactly when the reply resolves or the input message already
    carried one; a reply whose target is absent from both inputs comes out
    as it came in. *)
Theorem enrich_reply_snapshots live cached out :
  enrich live cached = Ok out →
  ∀ m', m' ∈ out →
    ∃ m, m ∈ allMessages live cached ∧
      (resolvable live cached m →
         ∃ tgt r, tgt ∈ allMessages live cached
                  ∧ ChatMessage.replyTo m = Some (ChatMessage.id tgt)
                  ∧ snapshot_of tgt = Ok r
                  ∧ m' = ChatMessage.with_replyToMessage m r) ∧
      (¬ resolvable live cached m → m' = m) ∧
      (is_Some (ChatMessage.replyToMessage m')
       ↔ resolvable live cached m' ∨ is_Some (ChatMessage.replyToMessage m)).
Proof.
  intros Hout m' Hm'.
  destruct (enrich_elem_of _ _ _ Hout) as [Hfrom _].
  destruct (Hfrom m' Hm') as (m & Hm & Henh). exists m. split; [done|].
  assert (resolvable live cached m' ↔ resolvable live cached m) as Hsame.
  { unfold resolvable. by rewrite (enhance_replyTo _ _ _ Henh). }
  apply enhance_Ok in Henh as [[Hnone ->]|(tgt & r & Htgt & Hr & ->)].
  - assert (¬ resolvable live cached m) as Hnot.
    { rewrite <- reply_target_resolvable, Hnone. by intros [? ?]. }
    split_and!; [done|done|tauto].
  - assert (resolvable live cached m) as Hres.
    { rewrite <- reply_target_resolvable, Htgt. by eexists. }
    split_and!; [|done|].
    + intros _. exists tgt, r.
      apply reply_target_Some in Htgt as (i & Hi & _ & [? <-]%messageMap_Some).
      done.
    + split; [tauto|]. intros _. simpl. by eexists.
Qed.

(** On valid dates the pass completes, and its output is in order. *)
Lemma enrich_valid live cached :
  valid_timestamps live cached →
  ∃ pre, enhanced live cached = Ok pre
    ∧ enrich live cached = Ok (sort by_timestamp pre)
    ∧ Forall (fun m => is_Some (ChatMessage.timestamp m)) pre
    ∧ chronological (sort by_timestamp pre).
Proof.
  intros Hvalid. destruct (enhanced_total _ _ Hvalid) as [pre Hpre].
  pose proof (enhanced_valid _ _ _ Hvalid Hpre) as Hkeyed.
  exists pre. split_and!; [done| |done|].
  - unfold enrich. by rewrite Hpre.
  - apply chronological_valid; [by rewrite sort_Permutation|].
    eapply sort_Sorted; [apply by_timestamp_keyed|done].
Qed.

(** C6 (amended).  When every timestamp of the input is a valid date, the
    pass completes and its output [out] is the stable sort by timestamp of
    the enriched union [pre]: the same entries, each timestamp at most its
    successor's, and the entries that share a timestamp in the order the
    union had them (live messages in their order, then the cached ones that
    were added). *)
Theorem enrich_chronological live cached :
  valid_timestamps live cached →
  ∃ pre out, enhanced live cached = Ok pre ∧ enrich live cached = Ok out ∧
    out ≡ₚ pre ∧ chronological out ∧ ∀ t, stamped t out = stamped t pre.
Proof.
  intros (pre & Hpre & Hout & Hkeyed & Hchrono)%enrich_valid.
  exists pre, (sort by_timestamp pre).
  split_and!; [done|done|apply sort_Permutation|done|].
  intros t. unfold stamped.
  eapply (sort_filter _ time_of); [apply by_timestamp_keyed| |done].
  intros a b Ha Hb. unfold time_of. by rewrite Ha, Hb.
Qed.

(** C5 (amended).  When no two live messages share an id and every
    timestamp is a valid date, the pass completes, and running it again on
    its own output, with nothing cached, returns that output. *)
Theorem enrich_idempotent live cached :
  NoDup (ChatMessage.id <$> live) → valid_timestamps live cached →
  ∃ out, enrich live cached = Ok out ∧ enrich out [] = Ok out.
Proof.
  intros Hnd (pre & Hpre & Hout & Hkeyed & Hchrono)%enrich_valid.
  set (out := sort by_timestamp pre) in *.
  exists out. split; [done|].
  assert (Forall (fun m => is_Some (ChatMessage.timestamp m)) out) as Hkeyed'.
  { unfold out. by rewrite sort_Permutation. }
  pose proof (enrich_NoDup _ _ _ Hnd Hout) as Hnd_out.
  destruct (enrich_elem_of _ _ _ Hout) as [Hfrom Hto].
  assert (enhanced out [] = Ok out) as Hfixed.
  { apply mapM_fixed, Forall_forall. intros y Hy. cbn [allMessages fold_left].
    destruct (Hfrom y Hy) as (x & Hx & Henh).
    pose proof (enhance_replyTo _ _ _ Henh) as HreplyTo.
    apply enhance_Ok in Henh as [[Hnone ->]|(tgt & r & Htgt & Hr & ->)].
    - apply enhance_Ok. left. split; [|done].
      destruct (reply_target (messageMap out) x) as [tgt|] eqn:Htgt; [|done].
      apply reply_target_Some in Htgt as (i & Hi & Hne & Hlook).
      assert (is_Some (reply_target (messageMap (allMessages live cached)) x))
        as [? ?]; [|congruence].
      assert (is_Some (messageMap (allMessages live cached) !! i)) as [t Ht].
      { apply messageMap_is_Some. rewrite <- (enrich_ids _ _ _ Hout).
        apply messageMap_is_Some. by eexists. }
      exists t. apply reply_target_Some. eauto.
    - apply reply_target_Some in Htgt as (i & Hi & Hne & [Htgt <-]%messageMap_Some).
      destruct (Hto tgt Htgt) as (tgt' & Htgt' & Henh').
      apply enhance_Ok. right. exists tgt', r. split_and!.
      + apply reply_target_Some. exists (ChatMessage.id tgt).
        split_and!; [by rewrite HreplyTo|done|].
        rewrite <- (enhance_id _ _ _ Henh'). by apply messageMap_NoDup.
      + by rewrite (snapshot_of_enhance _ _ _ Henh').
      + done. }
  unfold enrich. rewrite Hfixed. f_equal.
  eapply (sort_fixed _ time_of); [apply by_timestamp_keyed|done|].
  by apply chronological_valid.
Qed.
End EnrichmentTheorems.

(* ===================================================================== *)
(** * Facts about objects *)
(* ===================================================================== *)

Lemma obj_get_set_eq k v o : obj_get k (obj_set k v o) = Some v.
Proof.
  induction o as [|[k' v'] o IH]; simpl.
  - by rewrite String.eqb_refl.
  - destruct (String.eqb_spec k k') as [->|Hne]; simpl.
    + by rewrite String.eqb_refl.
    + by destruct (String.eqb_spec k k').
Qed.

Lemma obj_get_set_ne k k' v o :
  k ≠ k' → obj_get k (obj_set k' v o) = obj_get k o.
Proof.
  intros Hne. induction o as [|[k2 v2] o IH]; simpl.
  - by destruct (String.eqb_spec k k').
  - destruct (String.eqb_spec k' k2) as [->|Hne2]; simpl.
    + by destruct (String.eqb_spec k k2).
    + by rewrite IH.
Qed.

Lemma obj_set_keys k v o :
  (obj_set k v o).*1 = if decide (k ∈ o.*1) then o.*1 else o.*1 ++ [k].
Proof.
  induction o as [|[k' v'] o IH]; csimpl.
  - destruct (decide (k ∈ [])) as [Hin|]; [by apply elem_of_nil in Hin|done].
  - destruct (String.eqb_spec k k') as [->|Hne]; csimpl.
    + rewrite decide_True; [done|left].
    + rewrite IH. destruct (decide (k ∈ o.*1)) as [Hin|Hout].
      * rewrite decide_True; [done|by right].
      * rewrite decide_False; [done|]. by intros [?|?]%elem_of_cons.
Qed.

Lemma obj_set_NoDup k v o : NoDup o.*1 → NoDup (obj_set k v o).*1.
Proof.
  intros Hnd. rewrite obj_set_keys. case_decide; [done|].
  apply NoDup_app. split_and!; [done| |apply NoDup_singleton].
  by intros x Hx ->%list_elem_of_singleton.
Qed.

(** Spreading an object without repeated keys into an empty one copies it. *)
Lemma fold_obj_set_fresh o acc :
  NoDup (acc ++ o).*1 →
  fold_left (fun acc kv => obj_set kv.1 kv.2 acc) o acc = acc ++ o.
Proof.
  revert acc. induction o as [|[k v] o IH]; intros acc Hnd; simpl.
  - by rewrite app_nil_r.
  - assert (obj_set k v acc = acc ++ [(k, v)]) as ->.
    { rewrite fmap_app in Hnd. apply NoDup_app in Hnd as (_ & Hdisj & _).
      assert (k ∉ acc.*1) as Hk.
      { intros Hin. apply (Hdisj _ Hin). left. }
      clear -Hk. induction acc as [|[k' v'] acc IH]; simpl; [done|].
      csimpl in Hk. apply not_elem_of_cons in Hk as [Hne Hk].
      destruct (String.eqb_spec k k'); [done|]. by rewrite IH. }
    rewrite IH; rewrite <- app_assoc; done.
Qed.

Lemma spread_object o : NoDup o.*1 → spread (JObj o) [] = o.
Proof. intros Hnd. unfold spread. simpl. by rewrite fold_obj_set_fresh. Qed.

Lemma fold_obj_set_NoDup l acc :
  NoDup acc.*1 →
  NoDup (fold_left (fun acc kv => obj_set kv.1 kv.2 acc) l acc).*1.
Proof.
  revert acc. induction l as [|[k v] l IH]; intros acc Hnd; simpl; [done|].
  by apply IH, obj_set_NoDup.
Qed.

Lemma spread_NoDup v : NoDup (spread v []).*1.
Proof. apply fold_obj_set_NoDup. constructor. Qed.

(* ===================================================================== *)
(** * Facts about the storage medium *)
(* ===================================================================== *)

Lemma try_catch_Ok {A} (body : M A) handler w :
  (∀ e w', ∃ a w'', handler e w' = (Ok a, w'')) →
  ∃ a w', try_catch body handler w = (Ok a, w').
Proof.
  intros Hh. unfold try_catch. destruct (body w) as [[a|e] w']; eauto.
Qed.

Lemma forEach_removeItem ks items full c :
  forEach removeItem ks (mkWorld (Avail items full) c)
  = (Ok tt, mkWorld (Avail (foldr delete items (rev ks)) full) c).
Proof.
  revert items. induction ks as [|k ks IH]; intros items; simpl; [done|].
  unfold bind. simpl. rewrite IH. by rewrite foldr_app.
Qed.

Lemma lookup_foldr_delete (ks : list string) (items : gmap string stored) k :
  foldr delete items ks !! k = if decide (k ∈ ks) then None else items !! k.
Proof.
  induction ks as [|k' ks IH]; simpl.
  - destruct (decide (k ∈ [])) as [Hin|]; [by apply elem_of_nil in Hin|done].
  - destruct (decide (k' = k)) as [->|Hne].
    + rewrite lookup_delete_eq. destruct (decide (k ∈ k :: ks)) as [|Hout]; [done|].
      exfalso. apply Hout. left.
    + rewrite lookup_delete_ne, IH by done.
      destruct (decide (k ∈ ks)) as [Hin|Hout];
        destruct (decide (k ∈ k' :: ks)) as [Hin'|Hout']; try done.
      * exfalso. apply Hout'. by right.
      * apply elem_of_cons in Hin' as [?|?]; by subst.
Qed.

Section CacheFacts.
Context `{Platform}.

Lemma expired_spec now lastUpdated :
  expired now lastUpdated = true
  ↔ ∃ t, new_Date lastUpdated = Some t ∧ now - t > CACHE_EXPIRY.
Proof.
  unfold expired, getTime. destruct (new_Date lastUpdated) as [t|]; simpl.
  - rewrite Z.ltb_lt. split.
    + intros. exists t. split; [done|lia].
    + intros (? & [= <-] & ?). lia.
  - split; [done|]. by intros (? & ? & _).
Qed.

(** ** What each guarded operation does, case by case *)


Lemma loadMessages_Avail sessionId items full c :
  loadMessages sessionId (mkWorld (Avail items full) c) =
  match items !! getCacheKey sessionId with
  | Some (Json (JObj o)) =>
      if expired c (obj_get "lastUpdated" o)
      then (Ok (JArr []),
            mkWorld (Avail (delete (getCacheKey sessionId) items) full) c)
      else (Ok (or_else (obj_get "messages" o) (JArr [])),
            mkWorld (Avail items full) c)
  | _ => (Ok (JArr []), mkWorld (Avail items full) c)
  end.
Proof.
  unfold loadMessages, try_catch, bind, getItem, lift, Date_now, ret; simpl.
  destruct (items !! getCacheKey sessionId) as [[v|s]|]; simpl; [| |done].
  - destruct v; simpl; try done.
    unfold expired. by destruct (num_gt _ _).
  - by destruct (String.eqb s "").
Qed.

Lemma saveMessages_Avail sessionId messages items c :
  saveMessages sessionId messages (mkWorld (Avail items false) c) =
  (Ok tt,
   mkWorld (Avail (<[getCacheKey sessionId :=
              Json (JObj [("sessionId", JStr sessionId);
                          ("messages", JArr messages);
                          ("lastUpdated", JStr (toISOString_of c))])]> items)
                  false) c).
Proof. done. Qed.

(** A write the medium refuses is skipped. *)
Lemma saveMessages_Denied sessionId messages c :
  saveMessages sessionId messages (mkWorld Denied c) = (Ok tt, mkWorld Denied c).
Proof. done. Qed.

Lemma saveMessages_full sessionId messages items c :
  saveMessages sessionId messages (mkWorld (Avail items true) c)
  = (Ok tt, mkWorld (Avail items true) c).
Proof. done. Qed.


Lemma loadMessages_Ok sessionId w :
  ∃ v, loadMessages sessionId w = (Ok v, (loadMessages sessionId w).2).
Proof.
  unfold loadMessages.
  match goal with
  | |- context [try_catch ?b ?h w] =>
      destruct (try_catch_Ok b h w) as (v & w' & ->); [by eexists _, _|]
  end.
  by exists v.
Qed.

(** ** The scan for an id *)

Lemma find_id_truthy id l x : find_id id l = Ok (Some x) → truthy x = true.
Proof.
  induction l as [|m l IH]; simpl; [done|].
  destruct m; simpl; try done.
  destruct (obj_get "id" o) as [[| | |s| |]|]; try done.
  destruct (String.eqb s id); [|done]. by intros [= <-].
Qed.


End CacheFacts.

Section CacheTheorems.
Context `{Platform}.

(** C3 (amended).  [loadMessages] returns the empty sequence and leaves the
    store alone when there is no record under the session's key (or the
    medium refuses access), when the stored string is not JSON, and when it
    is JSON but not an object.  For a stored object, when its age exceeds
    the retention window, that is when [lastUpdated] reads as a date more
    than 24 hours before now, it returns the empty sequence and the record
    is removed; otherwise, which includes a [lastUpdated] that is missing or
    is no date, the store is unchanged and the result is the [messages]
    field as stored, whatever its shape, or the empty sequence when the
    field is missing or falsy. *)
Theorem loadMessages_spec sessionId w :
  let key := getCacheKey sessionId in
  (item key w = None → loadMessages sessionId w = (Ok (JArr []), w)) ∧
  (∀ s, item key w = Some (NotJson s) →
        loadMessages sessionId w = (Ok (JArr []), w)) ∧
  (∀ v, item key w = Some (Json v) → (∀ o, v ≠ JObj o) →
        loadMessages sessionId w = (Ok (JArr []), w)) ∧
  (∀ o, item key w = Some (Json (JObj o)) →
        (expired (clock w) (obj_get "lastUpdated" o) = true →
           loadMessages sessionId w = (Ok (JArr []), (removeItem key w).2)
           ∧ item key (removeItem key w).2 = None) ∧
        (expired (clock w) (obj_get "lastUpdated" o) = false →
           loadMessages sessionId w
           = (Ok (or_else (obj_get "messages" o) (JArr [])), w)
           ∧ (obj_get "messages" o = None →
              or_else (obj_get "messages" o) (JArr []) = JArr [])
           ∧ (∀ ms, obj_get "messages" o = Some (JArr ms) →
              or_else (obj_get "messages" o) (JArr []) = JArr ms)
           ∧ (∀ v, obj_get "messages" o = Some v →
              or_else (obj_get "messages" o) (JArr [])
              = if truthy v then v else JArr []))) ∧
  (∀ now lastUpdated,
      expired now lastUpdated = true
      ↔ ∃ t, new_Date lastUpdated = Some t ∧ now - t > 24 * 60 * 60 * 1000).
Proof.
  intros key. destruct w as [[|items full] c]; unfold item; simpl.
  - split_and!; try done. apply expired_spec.
  - rewrite loadMessages_Avail. fold key. split_and!.
    + by intros ->.
    + by intros s ->.
    + intros v -> Hv. destruct v; try done. by destruct (Hv o).
    + intros o ->. split.
      * intros ->. split; [done|]. unfold removeItem; simpl.
        apply lookup_delete_eq.
      * intros ->. split_and!; [done|by intros ->|by intros ms ->|].
        by intros v ->.
    + apply expired_spec.
Qed.

Lemma loadMessages_clock sessionId w :
  clock (loadMessages sessionId w).2 = clock w.
Proof.
  destruct w as [[|items full] c]; [done|]. rewrite loadMessages_Avail.
  destruct (items !! getCacheKey sessionId) as [[[]|]|]; try done.
  by destruct (expired _ _).
Qed.


Lemma item_at_time k later w : item k (at_time later w) = item k w.
Proof. done. Qed.




End CacheTheorems.

Section ParticipantTheorems.
Context `{Platform}.

Lemma updateParticipantState_Avail sessionId participantId state items c :
  (∀ t, items !! stateKey sessionId participantId = Some (NotJson t) →
        t = ""%string) →
  updateParticipantState sessionId participantId state
    (mkWorld (Avail items false) c)
  = (Ok tt,
     mkWorld (Avail (<[stateKey sessionId participantId :=
                Json (JObj (updatedState
                  (current_state (items !! stateKey sessionId participantId))
                  state c))]> items) false) c).
Proof.
  intros Hitem.
  unfold updateParticipantState, try_catch, bind, getItem, lift; simpl.
  destruct (items !! stateKey sessionId participantId) as [[v|t]|]; try done.
  by rewrite (Hitem t eq_refl).
Qed.

Lemma getParticipantState_fresh sessionId participantId items full c o :
  items !! stateKey sessionId participantId = Some (Json (JObj o)) →
  obj_get "lastUpdated" o = Some (JNum c) →
  getParticipantState sessionId participantId (mkWorld (Avail items full) c)
  = (Ok (JObj o), mkWorld (Avail items full) c).
Proof.
  intros Hitem Hlast.
  unfold getParticipantState, try_catch, bind, getItem, lift, Date_now; simpl.
  rewrite Hitem; simpl. rewrite Hlast; simpl.
  destruct (Z.eqb_spec c 0) as [->|]; simpl; [done|].
  rewrite Z.sub_diag. done.
Qed.

(** C7 (amended).  On a medium that takes reads and writes, where the
    participant's record, if any, is JSON (or the empty string), setting
    [{isMuted: true}] and then [{isKicked: true}] makes the next
    [getParticipantState] return the stored object, untouched in the store:
    in it [isMuted] and [isKicked] are [true], it carries the
    [lastUpdated] of the second write as well, and every other property is
    the one the record had before.  From an empty record the object is
    [{isMuted: true, lastUpdated: now, isKicked: true}]. *)
Theorem participant_state_merge sessionId participantId w items :
  localStorage w = Avail items false →
  (∀ t, items !! stateKey sessionId participantId = Some (NotJson t) →
        t = ""%string) →
  let w1 := (updateParticipantState sessionId participantId
               (mkState (Given true) Missing) w).2 in
  let w2 := (updateParticipantState sessionId participantId
               (mkState Missing (Given true)) w1).2 in
  ∃ o, getParticipantState sessionId participantId w2 = (Ok (JObj o), w2)
       ∧ obj_get "isMuted" o = Some (JBool true)
       ∧ obj_get "isKicked" o = Some (JBool true)
       ∧ obj_get "lastUpdated" o = Some (JNum (clock w))
       ∧ (∀ k, k ≠ "isMuted"%string → k ≠ "isKicked"%string →
               k ≠ "lastUpdated"%string →
               obj_get k o
               = obj_get k (spread (current_state
                     (items !! stateKey sessionId participantId)) []))
       ∧ (items !! stateKey sessionId participantId = None →
          o = [("isMuted", JBool true); ("lastUpdated", JNum (clock w));
               ("isKicked", JBool true)]).
Proof.
  destruct w as [ls c]; simpl. intros -> Hitem.
  rewrite updateParticipantState_Avail by done. simpl.
  rewrite updateParticipantState_Avail
    by (intros t; by rewrite lookup_insert_eq).
  simpl. rewrite lookup_insert_eq. simpl.
  set (o1 := updatedState _ (mkState (Given true) Missing) c).
  assert (NoDup o1.*1) as Hnd.
  { unfold o1, updatedState; simpl.
    apply obj_set_NoDup, obj_set_NoDup, spread_NoDup. }
  assert (updatedState (JObj o1) (mkState Missing (Given true)) c
          = obj_set "lastUpdated" (JNum c)
              (obj_set "isKicked" (JBool true) o1)) as ->.
  { unfold updatedState; simpl. by rewrite spread_object. }
  eexists. split_and!.
  - apply getParticipantState_fresh;
      [apply lookup_insert_eq|apply obj_get_set_eq].
  - rewrite !obj_get_set_ne by done. unfold o1, updatedState; simpl.
    rewrite obj_get_set_ne by done. apply obj_get_set_eq.
  - rewrite obj_get_set_ne by done. apply obj_get_set_eq.
  - apply obj_get_set_eq.
  - intros k Hk1 Hk2 Hk3. rewrite !obj_get_set_ne by done.
    unfold o1, updatedState; simpl. by rewrite !obj_get_set_ne.
  - intros Hnone. unfold o1. by rewrite Hnone.
Qed.

(** C10 (amended).  A stored participant record without [lastUpdated] has
    the current clock reading as its age.  When that reading is more than
    one hour (3 600 000 ms) past the epoch the record is removed and [{}] is
    returned, whatever flags it holds; at one hour or less it is returned
    as stored and stays. *)
Theorem getParticipantState_without_lastUpdated
    sessionId participantId w items full o :
  localStorage w = Avail items full →
  items !! stateKey sessionId participantId = Some (Json (JObj o)) →
  obj_get "lastUpdated" o = None →
  (clock w > 60 * 60 * 1000 →
     getParticipantState sessionId participantId w
     = (Ok (JObj []),
        mkWorld (Avail (delete (stateKey sessionId participantId) items) full)
                (clock w)))
  ∧ (clock w <= 60 * 60 * 1000 →
     getParticipantState sessionId participantId w = (Ok (JObj o), w)).
Proof.
  destruct w as [ls c]; simpl. intros -> Hitem Hlast.
  unfold getParticipantState, try_catch, bind, getItem, lift, Date_now; simpl.
  rewrite Hitem; simpl. rewrite Hlast; simpl. rewrite Z.sub_0_r.
  split; intros Hc.
  - destruct (Z.ltb_spec (60 * 60 * 1000) c); [done|lia].
  - destruct (Z.ltb_spec (60 * 60 * 1000) c); [lia|done].
Qed.

(** C9.  After [clearAllCache] no key that starts with [chat_messages_]
    holds an item, and every other key holds the item it held before; on a
    medium that grants access the call returns normally. *)
Theorem clearAllCache_namespace w :
  (∀ k, item k (clearAllCache w).2
        = if String.prefix CACHE_KEY_PREFIX k then None else item k w)
  ∧ (∀ items full, localStorage w = Avail items full →
                   (clearAllCache w).1 = Ok tt).
Proof.
  split.
  2:{ destruct w as [ls c]; simpl. intros items full ->.
      unfold clearAllCache, bind, Object_keys; simpl.
      by rewrite forEach_removeItem. }
  intros k. destruct w as [[|items full] c]; unfold item; simpl.
  - by destruct (String.prefix _ _).
  - unfold clearAllCache, bind, Object_keys; simpl.
    rewrite forEach_removeItem; simpl. rewrite lookup_foldr_delete.
    destruct (String.prefix CACHE_KEY_PREFIX k) eqn:Hprefix.
    + destruct (decide (k ∈ _)) as [|Hout]; [done|].
      destruct (items !! k) as [v|] eqn:Hk; [|done].
      exfalso. apply Hout. apply list_elem_of_In. apply -> in_rev.
      apply filter_In. split; [|done]. apply list_elem_of_In.
      apply list_elem_of_fmap. exists (k, v). split; [done|].
      by apply elem_of_map_to_list.
    + destruct (decide (k ∈ _)) as [Hin|]; [|done].
      apply list_elem_of_In, in_rev, filter_In in Hin as [_ Hin].
      congruence.
Qed.

(** The four operations written inside [try] return, whatever the medium
    and the stored strings are. *)
Lemma guarded_operations_return sessionId participantId messages state w :
  (∃ v w', loadMessages sessionId w = (Ok v, w'))
  ∧ (∃ w', saveMessages sessionId messages w = (Ok tt, w'))
  ∧ (∃ w', updateParticipantState sessionId participantId state w = (Ok tt, w'))
  ∧ (∃ v w', getParticipantState sessionId participantId w = (Ok v, w')).
Proof.
  split_and!.
  - apply try_catch_Ok. by eexists _, _.
  - edestruct (try_catch_Ok (A:=unit)) as ([] & w' & Hw');
      [|exists w'; apply Hw']. by eexists _, _.
  - edestruct (try_catch_Ok (A:=unit)) as ([] & w' & Hw');
      [|exists w'; apply Hw']. by eexists _, _.
  - apply try_catch_Ok. by eexists _, _.
Qed.

(** C8 fails on the code.  [clearMessages] and [clearAllCache] have no
    [try]: when the medium refuses access the SecurityError leaves them.
    [addMessage] calls [find] outside any [try]: when the stored [messages]
    holds [null] (or is not an array) the TypeError leaves it. *)
Theorem unguarded_operations_throw :
  (∀ sessionId c,
      clearMessages sessionId (mkWorld Denied c)
      = (Throw SecurityError, mkWorld Denied c))
  ∧ (∀ c, clearAllCache (mkWorld Denied c)
          = (Throw SecurityError, mkWorld Denied c))
  ∧ (∀ sessionId message full c,
      let w := mkWorld
        (Avail {[getCacheKey sessionId :=
                   Json (JObj [("messages", JArr [JNull])])]} full) c in
      addMessage sessionId message w = (Throw TypeError, w)).
Proof.
  split_and!; [done..|]. intros sessionId message full c w.
  unfold addMessage, bind at 1. subst w.
  rewrite loadMessages_Avail, lookup_singleton_eq. done.
Qed.
End ParticipantTheorems.

(* ===================================================================== *)
(** * The theorems at work, and where the claims fail *)
(* ===================================================================== *)

Section Instances.
#[local] Existing Instance Reference.platform.
Import Sample.
Local Open Scope string_scope.

(** ** Enrichment *)

(** C1 as stated fails: two live messages under one id both reach the
    output, which then has two entries for that id. *)
Lemma enrich_keeps_duplicate_live_ids :
  enrich [a_late; a_early] [] = Ok [a_early; a_late]
  ∧ ¬ NoDup (ChatMessage.id <$> [a_early; a_late]).
Proof.
  split; [reflexivity|].
  intros [Hnot _]%NoDup_cons. apply Hnot. left.
Qed.

(** C1 (amended) on the specification's scenario, with a stale cached copy
    of the live message. *)
Lemma enrich_one_entry_per_id_witness :
  (valid_timestamps [m2] [m1; m2_stale] →
     ∃ out, enrich [m2] [m1; m2_stale] = Ok out) ∧
  ∀ out, enrich [m2] [m1; m2_stale] = Ok out →
    NoDup (ChatMessage.id <$> out) ∧
    (∀ i, i ∈ ChatMessage.id <$> out
          ↔ i ∈ ChatMessage.id <$> [m2]
            ∨ i ∈ CachedMessage.id <$> [m1; m2_stale]) ∧
    (∀ m m', m ∈ [m2] → m' ∈ out → ChatMessage.id m' = ChatMessage.id m →
             m' = m ∨ ∃ r, m' = ChatMessage.with_replyToMessage m r).
Proof.
  apply (enrich_one_entry_per_id [m2] [m1; m2_stale]).
  apply NoDup_singleton.
Defined.

(** C2 as stated fails: a reply that arrives with a snapshot keeps it,
    though no message has the id it answers. *)
Lemma enrich_keeps_unresolved_snapshot :
  enrich [orphan] [] = Ok [orphan]
  ∧ ¬ snapshot_iff_resolvable [orphan] [] [orphan].
Proof.
  split; [reflexivity|]. intros Hclaim.
  destruct (Hclaim orphan) as [Hres _]; [left|].
  destruct Hres as (r & [= <-] & _ & [Hin|Hin]); [by eexists|..].
  - by apply list_elem_of_singleton in Hin.
  - by apply elem_of_nil in Hin.
Qed.

(** C2 (amended) on the specification's scenario: the live reply [m2] to
    the cached [m1] comes out with the snapshot of [m1]. *)
Lemma enrich_reply_snapshots_witness :
  ∃ m, m ∈ allMessages [m2] [m1] ∧
    (resolvable [m2] [m1] m →
       ∃ tgt r, tgt ∈ allMessages [m2] [m1]
                ∧ ChatMessage.replyTo m = Some (ChatMessage.id tgt)
                ∧ snapshot_of tgt = Ok r
                ∧ ChatMessage.with_replyToMessage m2
                    (mkSnapshot "m1" "bob" "hi" "2023-11-14T22:13:20.000Z")
                  = ChatMessage.with_replyToMessage m r) ∧
    (¬ resolvable [m2] [m1] m →
       ChatMessage.with_replyToMessage m2
         (mkSnapshot "m1" "bob" "hi" "2023-11-14T22:13:20.000Z") = m) ∧
    (is_Some (ChatMessage.replyToMessage
                (ChatMessage.with_replyToMessage m2
                   (mkSnapshot "m1" "bob" "hi" "2023-11-14T22:13:20.000Z")))
     ↔ resolvable [m2] [m1]
         (ChatMessage.with_replyToMessage m2
            (mkSnapshot "m1" "bob" "hi" "2023-11-14T22:13:20.000Z"))
       ∨ is_Some (ChatMessage.replyToMessage m)).
Proof.
  apply (enrich_reply_snapshots [m2] [m1]
           [of_cached m1;
            ChatMessage.with_replyToMessage m2
              (mkSnapshot "m1" "bob" "hi" "2023-11-14T22:13:20.000Z")]).
  - reflexivity.
  - right. left.
Defined.

(** C5 as stated fails: with two live messages under one id, the second
    pass quotes the other one. *)
Lemma enrich_again_differs :
  enrich [a_late; a_early; b] []
  = Ok [a_early; a_late;
        ChatMessage.with_replyToMessage b
          (quote "y" "1970-01-01T00:00:00.001Z")]
  ∧ enrich [a_early; a_late;
            ChatMessage.with_replyToMessage b
              (quote "y" "1970-01-01T00:00:00.001Z")] []
    = Ok [a_early; a_late;
          ChatMessage.with_replyToMessage b
            (quote "x" "1970-01-01T00:00:00.002Z")]
  ∧ enrich [a_early; a_late;
            ChatMessage.with_replyToMessage b
              (quote "y" "1970-01-01T00:00:00.001Z")] []
    ≠ Ok [a_early; a_late;
          ChatMessage.with_replyToMessage b
            (quote "y" "1970-01-01T00:00:00.001Z")].
Proof. split_and!; [reflexivity|reflexivity|discriminate]. Qed.

Lemma sample_valid_timestamps : valid_timestamps [m2] [m1; m2_stale].
Proof.
  split.
  - apply Forall_singleton. by eexists.
  - apply Forall_cons. split; [eexists; by vm_compute|].
    apply Forall_singleton. eexists; by vm_compute.
Defined.

(** C5 (amended) on the specification's scenario. *)
Lemma enrich_idempotent_witness :
  ∃ out, enrich [m2] [m1; m2_stale] = Ok out ∧ enrich out [] = Ok out.
Proof.
  apply (enrich_idempotent [m2] [m1; m2_stale]).
  - apply NoDup_singleton.
  - apply sample_valid_timestamps.
Defined.

(** C6 as stated fails: next to an invalid date no order is
    non-decreasing, whichever way the engine puts the two.  The invalid
    date may be a live one, or come from a cached timestamp that does not
    parse. *)
Lemma enrich_invalid_date_unordered :
  enrich [undated; dated] [] = Ok [undated; dated]
  ∧ ¬ chronological [undated; dated]
  ∧ ¬ chronological [dated; undated]
  ∧ enrich [dated] [unparsed] = Ok [dated; of_cached unparsed]
  ∧ ¬ chronological [dated; of_cached unparsed].
Proof.
  split_and!; try reflexivity; intros Hs; inversion Hs as [|? ? _ Hhd];
    by inversion Hhd.
Qed.

(** C6 (amended) on the specification's scenario. *)
Lemma enrich_chronological_witness :
  ∃ pre out, enhanced [m2] [m1; m2_stale] = Ok pre
    ∧ enrich [m2] [m1; m2_stale] = Ok out
    ∧ out ≡ₚ pre ∧ chronological out ∧ ∀ t, stamped t out = stamped t pre.
Proof.
  apply (enrich_chronological [m2] [m1; m2_stale]).
  apply sample_valid_timestamps.
Defined.

(** ** The store *)

(** C3 as stated fails: a record that has not the expected shape is not
    answered with the empty sequence.  A [messages] field that is a string
    is returned as it is; a record without [lastUpdated] has no age and is
    returned ten years on. *)
Lemma loadMessages_returns_other_shapes :
  loadMessages "s1"
    (store_with (JObj [("messages", JStr "abc");
                       ("lastUpdated", JStr "2023-11-14T22:13:20.000Z")])
                (T0 + hour))
  = (Ok (JStr "abc"),
     store_with (JObj [("messages", JStr "abc");
                       ("lastUpdated", JStr "2023-11-14T22:13:20.000Z")])
                (T0 + hour))
  ∧ JStr "abc" ≠ JArr []
  ∧ loadMessages "s1"
      (store_with (JObj [("messages", JArr [JNum 1])])
                  (T0 + 87600 * hour))
    = (Ok (JArr [JNum 1]),
       store_with (JObj [("messages", JArr [JNum 1])]) (T0 + 87600 * hour))
  ∧ JArr [JNum 1] ≠ JArr [].
Proof. split_and!; [reflexivity|discriminate|reflexivity|discriminate]. Qed.

(** C3 (amended) on the specification's expiry example: the record is
    twenty-five hours old, then twenty-three. *)
Lemma loadMessages_spec_witness :
  (loadMessages "s1"
     (store_with (record "2023-11-14T22:13:20.000Z" [json_of_message m1])
                 (T0 + 25 * hour))
   = (Ok (JArr []),
      (removeItem (getCacheKey "s1")
         (store_with (record "2023-11-14T22:13:20.000Z" [json_of_message m1])
                     (T0 + 25 * hour))).2)
   ∧ item (getCacheKey "s1")
       (removeItem (getCacheKey "s1")
          (store_with (record "2023-11-14T22:13:20.000Z" [json_of_message m1])
                      (T0 + 25 * hour))).2 = None)
  ∧ loadMessages "s1"
      (store_with (record "2023-11-14T22:13:20.000Z" [json_of_message m1])
                  (T0 + 23 * hour))
    = (Ok (JArr [json_of_message m1]),
       store_with (record "2023-11-14T22:13:20.000Z" [json_of_message m1])
                  (T0 + 23 * hour)).
Proof.
  split.
  - destruct (loadMessages_spec "s1"
      (store_with (record "2023-11-14T22:13:20.000Z" [json_of_message m1])
                  (T0 + 25 * hour))) as (_ & _ & _ & Hrecord & _).
    destruct (Hrecord _ (lookup_singleton_eq _ _)) as [Hexpired _].
    apply Hexpired. reflexivity.
  - destruct (loadMessages_spec "s1"
      (store_with (record "2023-11-14T22:13:20.000Z" [json_of_message m1])
                  (T0 + 23 * hour))) as (_ & _ & _ & Hrecord & _).
    destruct (Hrecord _ (lookup_singleton_eq _ _)) as [_ Hfresh].
    destruct Hfresh as [Hload _]; [reflexivity|]. apply Hload.
Defined.




(** C7 as stated fails: the object returned carries [lastUpdated] too. *)
Lemma getParticipantState_returns_lastUpdated :
  (getParticipantState "s" "p"
     (updateParticipantState "s" "p" kick
        (updateParticipantState "s" "p" mute (empty_store T0)).2).2).1
  = Ok (JObj [("isMuted", JBool true); ("lastUpdated", JNum T0);
              ("isKicked", JBool true)])
  ∧ ¬ same_object
        [("isMuted", JBool true); ("lastUpdated", JNum T0);
         ("isKicked", JBool true)]
        [("isMuted", JBool true); ("isKicked", JBool true)].
Proof.
  split; [reflexivity|]. intros Hsame.
  specialize (Hsame "lastUpdated"). discriminate.
Qed.

(** C7 (amended) on an empty store. *)
Lemma participant_state_merge_witness :
  ∃ o, getParticipantState "s" "p"
         (updateParticipantState "s" "p" kick
            (updateParticipantState "s" "p" mute (empty_store T0)).2).2
       = (Ok (JObj o),
          (updateParticipantState "s" "p" kick
             (updateParticipantState "s" "p" mute (empty_store T0)).2).2)
       ∧ obj_get "isMuted" o = Some (JBool true)
       ∧ obj_get "isKicked" o = Some (JBool true)
       ∧ obj_get "lastUpdated" o = Some (JNum (clock (empty_store T0)))
       ∧ (∀ k, k ≠ "isMuted" → k ≠ "isKicked" → k ≠ "lastUpdated" →
               obj_get k o
               = obj_get k (spread (current_state
                     ((∅ : gmap string stored) !! stateKey "s" "p")) []))
       ∧ ((∅ : gmap string stored) !! stateKey "s" "p" = None →
          o = [("isMuted", JBool true);
               ("lastUpdated", JNum (clock (empty_store T0)));
               ("isKicked", JBool true)]).
Proof.
  apply (participant_state_merge "s" "p" (empty_store T0) ∅).
  - reflexivity.
  - intros t Ht. by rewrite lookup_empty in Ht.
Defined.

(** C10 as stated fails: exactly one hour past the epoch the record is
    still returned, and stays. *)
Lemma getParticipantState_at_one_hour :
  clock (state_store hour) >= 60 * 60 * 1000
  ∧ getParticipantState "s" "p" (state_store hour)
    = (Ok (JObj muted), state_store hour)
  ∧ item (stateKey "s" "p")
      (getParticipantState "s" "p" (state_store hour)).2
    = Some (Json (JObj muted)).
Proof. split_and!; [by vm_compute|reflexivity|reflexivity]. Qed.

(** C10 (amended) one millisecond later. *)
Lemma getParticipantState_without_lastUpdated_witness :
  (clock (state_store (hour + 1)) > 60 * 60 * 1000 →
     getParticipantState "s" "p" (state_store (hour + 1))
     = (Ok (JObj []),
        mkWorld (Avail (delete (stateKey "s" "p")
                               {[stateKey "s" "p" := Json (JObj muted)]})
                       false)
                (clock (state_store (hour + 1)))))
  ∧ (clock (state_store (hour + 1)) <= 60 * 60 * 1000 →
     getParticipantState "s" "p" (state_store (hour + 1))
     = (Ok (JObj muted), state_store (hour + 1))).
Proof.
  apply (getParticipantState_without_lastUpdated "s" "p"
           (state_store (hour + 1)) _ false muted).
  - reflexivity.
  - apply lookup_singleton_eq.
  - reflexivity.
Defined.

(** C9 on a store with one cached session and a key of another
    application. *)
Lemma clearAllCache_namespace_witness :
  item "other_app_setting"
    (clearAllCache
       (mkWorld (Avail {[getCacheKey "s1" := Json (record "" []);
                         "other_app_setting" := NotJson "dark"]} false) T0)).2
  = Some (NotJson "dark")
  ∧ item (getCacheKey "s1")
      (clearAllCache
         (mkWorld (Avail {[getCacheKey "s1" := Json (record "" []);
                           "other_app_setting" := NotJson "dark"]} false) T0)).2
    = None.
Proof.
  split.
  - rewrite (proj1 (clearAllCache_namespace _) "other_app_setting").
    reflexivity.
  - rewrite (proj1 (clearAllCache_namespace _) (getCacheKey "s1")).
    reflexivity.
Defined.
End Instances.

(* ===================================================================== *)
(** * Further properties of the specification *)
(* ===================================================================== *)

Section Further.
Context `{Platform}.

(** Save, then load: on a medium that takes the write, what was saved is
    what is read back, as long as the platform reads back the ISO date it
    has just written. *)
Theorem loadMessages_after_saveMessages sessionId messages w items :
  localStorage w = Avail items false →
  Date_parse (toISOString_of (clock w)) = Some (clock w) →
  loadMessages sessionId (saveMessages sessionId messages w).2
  = (Ok (JArr messages), (saveMessages sessionId messages w).2).
Proof.
  destruct w as [ls c]; simpl. intros -> Hiso.
  rewrite saveMessages_Avail; simpl.
  rewrite loadMessages_Avail, lookup_insert_eq; simpl.
  unfold expired; simpl. rewrite Hiso; simpl. by rewrite Z.sub_diag.
Qed.

(** Reply resolution: when [B] answers [A], both dated, the output has [B]
    with the snapshot of [A]. *)
Theorem enrich_resolves_reply A B tA :
  ChatMessage.timestamp A = Some tA →
  is_Some (ChatMessage.timestamp B) →
  ChatMessage.replyTo B = Some (ChatMessage.id A) →
  ChatMessage.id A ≠ ""%string →
  ChatMessage.id B ≠ ChatMessage.id A →
  ∃ out, enrich [A; B] [] = Ok out
         ∧ ChatMessage.with_replyToMessage B
             (mkSnapshot (ChatMessage.id A) (ChatMessage.senderAlias A)
                         (ChatMessage.content A) (toISOString_of tA)) ∈ out.
Proof.
  intros HtA HtB Hreply Hne Hdiff.
  destruct (enrich_total [A; B] []) as [out Hout].
  { split; [|done]. repeat constructor; [by eexists|done]. }
  exists out. split; [done|].
  destruct (enrich_elem_of _ _ _ Hout) as [_ Hto].
  destruct (Hto B) as (B' & HB' & Henh); [right; left|].
  assert (reply_target (messageMap [A; B]) B = Some A) as Htarget.
  { apply reply_target_Some. exists (ChatMessage.id A).
    split_and!; [done..|]. apply messageMap_NoDup; [|left].
    apply NoDup_cons. split; [|apply NoDup_singleton].
    intros Hin%list_elem_of_singleton. congruence. }
  apply enhance_Ok in Henh as [[Hnone _]|(tgt & r & Htgt & Hr & ->)].
  - cbn [allMessages fold_left] in Hnone. congruence.
  - cbn [allMessages fold_left] in Htgt. rewrite Htarget in Htgt.
    injection Htgt as <-. unfold snapshot_of in Hr. rewrite HtA in Hr.
    simpl in Hr. by injection Hr as <-.
Qed.
End Further.

Section FurtherInstances.
#[local] Existing Instance Reference.platform.
Import Sample.
Local Open Scope string_scope.

(** Save, then load, on an empty store. *)
Lemma loadMessages_after_saveMessages_witness :
  loadMessages "s1"
    (saveMessages "s1" [json_of_message m1] (empty_store T0)).2
  = (Ok (JArr [json_of_message m1]),
     (saveMessages "s1" [json_of_message m1] (empty_store T0)).2).
Proof.
  apply (loadMessages_after_saveMessages "s1" _ (empty_store T0) ∅);
    reflexivity.
Defined.

(** Reply resolution on two live messages. *)
Lemma enrich_resolves_reply_witness :
  ∃ out, enrich [a_early; b] [] = Ok out
         ∧ ChatMessage.with_replyToMessage b
             (mkSnapshot (ChatMessage.id a_early)
                (ChatMessage.senderAlias a_early)
                (ChatMessage.content a_early) (toISOString_of 1)) ∈ out.
Proof.
  apply (enrich_resolves_reply a_early b 1); done.
Defined.

(** The end-to-end scenario of the specification: [m1] is cached, the live
    feed delivers [m2] in reply; the output is [m1], then [m2] quoting
    ["hi"]. *)
Example enrich_end_to_end :
  enrich [m2] [m1]
  = Ok [of_cached m1;
        ChatMessage.with_replyToMessage m2
          (mkSnapshot "m1" "bob" "hi" "2023-11-14T22:13:20.000Z")].
Proof. reflexivity. Qed.
End FurtherInstances.

(* ===================================================================== *)
(** * The store: keys, frames, time *)
(* ===================================================================== *)

Lemma obj_get_delete_eq k o : obj_get k (obj_delete k o) = None.
Proof.
  induction o as [|[k' v'] o IH]; simpl; [done|].
  destruct (String.eqb_spec k k') as [->|Hne]; simpl; [done|].
  by destruct (String.eqb_spec k k').
Qed.

Lemma obj_get_delete_ne k k' o :
  k ≠ k' → obj_get k (obj_delete k' o) = obj_get k o.
Proof.
  intros Hne. induction o as [|[k2 v2] o IH]; simpl; [done|].
  destruct (String.eqb_spec k' k2) as [->|Hne2]; simpl.
  - by destruct (String.eqb_spec k k2).
  - by rewrite IH.
Qed.

Lemma obj_get_spread_flag_eq k f o :
  obj_get k (spread_flag k f o) = merge_flag f (obj_get k o).
Proof.
  destruct f; simpl; [done|apply obj_get_delete_eq|apply obj_get_set_eq].
Qed.

Lemma obj_get_spread_flag_ne k k' f o :
  k ≠ k' → obj_get k (spread_flag k' f o) = obj_get k o.
Proof.
  intros Hne. destruct f; simpl;
    [done|by apply obj_get_delete_ne|by apply obj_get_set_ne].
Qed.

(** ** Keys *)

Lemma string_app_assoc (a b c : string) : (a +:+ b) +:+ c = a +:+ (b +:+ c).
Proof. induction a as [|x a IH]; simpl; [done|]. exact (f_equal (String x) IH). Qed.

Lemma getCacheKey_inj s s' : getCacheKey s = getCacheKey s' → s = s'.
Proof.
  unfold getCacheKey, CACHE_KEY_PREFIX. intros Heq. simpl in Heq.
  by simplify_eq.
Qed.

Lemma getCacheKey_prefix s : String.prefix CACHE_KEY_PREFIX (getCacheKey s) = true.
Proof.
  unfold getCacheKey, CACHE_KEY_PREFIX. simpl. by destruct s.
Qed.

Lemma stateKey_not_cache s p : String.prefix CACHE_KEY_PREFIX (stateKey s p) = false.
Proof. done. Qed.

Lemma stateKey_getCacheKey s p s' : stateKey s p ≠ getCacheKey s'.
Proof. done. Qed.

Section StoreFrames.
Context `{Platform}.

(** What [loadMessages] returns depends on the item under its key and on
    the clock, and on nothing else. *)
Lemma loadMessages_reads sessionId w1 w2 :
  item (getCacheKey sessionId) w1 = item (getCacheKey sessionId) w2 →
  clock w1 = clock w2 →
  (loadMessages sessionId w1).1 = (loadMessages sessionId w2).1.
Proof.
  destruct w1 as [[|items1 full1] c1], w2 as [[|items2 full2] c2];
    unfold item; simpl; intros Hitem <-.
  - done.
  - by rewrite loadMessages_Avail, <- Hitem.
  - by rewrite loadMessages_Avail, Hitem.
  - rewrite !loadMessages_Avail, Hitem.
    destruct (items2 !! _) as [[[]|]|]; try done. by destruct (expired _ _).
Qed.

Lemma getParticipantState_reads sessionId participantId w1 w2 :
  item (stateKey sessionId participantId) w1
  = item (stateKey sessionId participantId) w2 →
  clock w1 = clock w2 →
  (getParticipantState sessionId participantId w1).1
  = (getParticipantState sessionId participantId w2).1.
Proof.
  destruct w1 as [[|items1 full1] c1], w2 as [[|items2 full2] c2];
    unfold item; simpl; intros Hitem <-;
    unfold getParticipantState, try_catch, bind, getItem, lift, Date_now;
    simpl.
  - done.
  - by rewrite <- Hitem.
  - by rewrite Hitem.
  - rewrite Hitem. destruct (items2 !! _) as [[v|s]|]; simpl; try done.
    + destruct (get_prop v "lastUpdated"); simpl; [|done].
      by destruct (num_gt _ _).
    + by destruct (String.eqb s "").
Qed.

(** ** Frames: an operation leaves every key but its own, and the clock *)

Lemma removeItem_frame key k w :
  k ≠ key → item k (removeItem key w).2 = item k w.
Proof.
  intros Hne. destruct w as [[|items full] c]; unfold item; simpl; [done|].
  by rewrite lookup_delete_ne.
Qed.

Lemma loadMessages_frame sessionId k w :
  k ≠ getCacheKey sessionId →
  item k (loadMessages sessionId w).2 = item k w
  ∧ clock (loadMessages sessionId w).2 = clock w.
Proof.
  intros Hne. split; [|apply loadMessages_clock].
  destruct w as [[|items full] c]; [done|]. rewrite loadMessages_Avail.
  destruct (items !! getCacheKey sessionId) as [[[]|]|]; try done.
  destruct (expired _ _); [|done]. unfold item; simpl.
  by rewrite lookup_delete_ne.
Qed.

Lemma saveMessages_frame sessionId messages k w :
  k ≠ getCacheKey sessionId →
  item k (saveMessages sessionId messages w).2 = item k w
  ∧ clock (saveMessages sessionId messages w).2 = clock w.
Proof.
  intros Hne. destruct w as [[|items [|]] c]; try done.
  rewrite saveMessages_Avail. unfold item; simpl.
  by rewrite lookup_insert_ne.
Qed.

(** What [addMessage_any] returns and leaves, from what [loadMessages]
    returned. *)
Lemma addMessage_any_run sessionId id message w v :
  (loadMessages sessionId w).1 = Ok v →
  addMessage_any sessionId id message w =
  match v with
  | JArr existing =>
      match find_id id existing with
      | Ok None =>
          saveMessages sessionId (existing ++ [message])
                       (loadMessages sessionId w).2
      | Ok (Some _) => (Ok tt, (loadMessages sessionId w).2)
      | Throw e => (Throw e, (loadMessages sessionId w).2)
      end
  | _ => (Throw TypeError, (loadMessages sessionId w).2)
  end.
Proof.
  intros Hv. unfold addMessage_any, bind at 1.
  destruct (loadMessages sessionId w) as [r w'] eqn:Hload.
  simpl in Hv. subst r. destruct v as [|b|n|s|existing|o]; try done.
  unfold bind, lift.
  destruct (find_id id existing) as [[x|]|e] eqn:Hfind; simpl; try done.
  by rewrite (find_id_truthy _ _ _ Hfind).
Qed.

Lemma addMessage_any_frame sessionId id message k w :
  k ≠ getCacheKey sessionId →
  item k (addMessage_any sessionId id message w).2 = item k w
  ∧ clock (addMessage_any sessionId id message w).2 = clock w.
Proof.
  intros Hne. destruct (loadMessages_Ok sessionId w) as [v Hv].
  destruct (loadMessages_frame sessionId k w Hne) as [Hitem Hclock].
  rewrite (addMessage_any_run _ _ _ _ v) by by rewrite Hv.
  destruct v as [|b|n|s|existing|o]; try done.
  destruct (find_id id existing) as [[x|]|e]; try done.
  destruct (saveMessages_frame sessionId (existing ++ [message]) k
              (loadMessages sessionId w).2 Hne) as [-> ->]. done.
Qed.

Lemma addMessage_as_any sessionId message :
  addMessage sessionId message
  = addMessage_any sessionId (CachedMessage.id message)
                   (json_of_message message).
Proof. done. Qed.

Lemma updateParticipantState_frame sessionId participantId state k w :
  k ≠ stateKey sessionId participantId →
  item k (updateParticipantState sessionId participantId state w).2 = item k w
  ∧ clock (updateParticipantState sessionId participantId state w).2 = clock w.
Proof.
  intros Hne. destruct w as [[|items full] c]; [done|].
  unfold updateParticipantState, try_catch, bind, getItem, lift, Date_now,
    setItem, item; simpl.
  destruct (JSON_parse _); simpl; [|done].
  destruct full; simpl; [done|]. by rewrite lookup_insert_ne.
Qed.

Lemma getParticipantState_frame sessionId participantId k w :
  k ≠ stateKey sessionId participantId →
  item k (getParticipantState sessionId participantId w).2 = item k w
  ∧ clock (getParticipantState sessionId participantId w).2 = clock w.
Proof.
  intros Hne. destruct w as [[|items full] c]; [done|].
  unfold getParticipantState, try_catch, bind, getItem, lift, Date_now, item;
    simpl.
  destruct (item_truthy _); simpl; [|done].
  destruct (JSON_parse _) as [v|]; simpl; [|done].
  destruct (get_prop v "lastUpdated"); simpl; [|done].
  destruct (num_gt _ _); simpl; [|done]. by rewrite lookup_delete_ne.
Qed.
End StoreFrames.

Section StoreTheorems.
Context `{Platform}.

Lemma clearAllCache_Avail items full c :
  clearAllCache (mkWorld (Avail items full) c)
  = (Ok tt,
     mkWorld (Avail (foldr delete items
                       (rev (List.filter
                               (fun key => String.prefix CACHE_KEY_PREFIX key)
                               (map fst (map_to_list items))))) full) c).
Proof.
  unfold clearAllCache, bind, Object_keys; simpl.
  by rewrite forEach_removeItem.
Qed.

(** [clearAllCache] leaves the keys outside the prefix, and the clock. *)
Lemma clearAllCache_frame k w :
  String.prefix CACHE_KEY_PREFIX k = false →
  item k (clearAllCache w).2 = item k w
  ∧ clock (clearAllCache w).2 = clock w.
Proof.
  intros Hk. destruct w as [[|items full] c]; [done|].
  rewrite clearAllCache_Avail. unfold item; simpl. split; [|done].
  rewrite lookup_foldr_delete. destruct (decide (k ∈ _)) as [Hin|]; [|done].
  apply list_elem_of_In, in_rev, filter_In in Hin as [_ Hin]. congruence.
Qed.

(** [clearAllCache] empties the keys inside the prefix. *)
Lemma clearAllCache_removes k w :
  String.prefix CACHE_KEY_PREFIX k = true → item k (clearAllCache w).2 = None.
Proof.
  intros Hk. destruct w as [[|items full] c]; [done|].
  rewrite clearAllCache_Avail. unfold item; simpl.
  rewrite lookup_foldr_delete. destruct (decide (k ∈ _)) as [|Hout]; [done|].
  destruct (items !! k) as [v|] eqn:Hv; [|done].
  exfalso. apply Hout. apply list_elem_of_In. apply -> in_rev.
  apply filter_In. split; [|done]. apply list_elem_of_In.
  apply list_elem_of_fmap. exists (k, v). split; [done|].
  by apply elem_of_map_to_list.
Qed.

(** Sessions do not see each other: what a session loads is the same
    before and after any operation on another session. *)
Theorem sessions_isolated sessionId other message messages w :
  other ≠ sessionId →
  (loadMessages other (saveMessages sessionId messages w).2).1
  = (loadMessages other w).1
  ∧ (loadMessages other (addMessage sessionId message w).2).1
    = (loadMessages other w).1
  ∧ (loadMessages other (clearMessages sessionId w).2).1
    = (loadMessages other w).1
  ∧ (loadMessages other (loadMessages sessionId w).2).1
    = (loadMessages other w).1.
Proof.
  intros Hne.
  assert (getCacheKey other ≠ getCacheKey sessionId) as Hkey
    by by intros ?%getCacheKey_inj.
  split_and!; apply loadMessages_reads.
  - exact (proj1 (saveMessages_frame _ _ _ _ Hkey)).
  - exact (proj2 (saveMessages_frame _ _ _ _ Hkey)).
  - exact (proj1 (addMessage_any_frame _ _ _ _ _ Hkey)).
  - exact (proj2 (addMessage_any_frame _ _ _ _ _ Hkey)).
  - by apply removeItem_frame.
  - by destruct w as [[|items full] c].
  - exact (proj1 (loadMessages_frame _ _ _ Hkey)).
  - exact (proj2 (loadMessages_frame _ _ _ Hkey)).
Qed.

(** The two namespaces do not see each other: no operation on the cached
    messages, [clearAllCache] included, changes what a participant's state
    reads as, and no operation on a participant's state changes what a
    session loads. *)
Theorem namespaces_independent
    sessionId participantId session message messages state w :
  ((getParticipantState sessionId participantId
      (saveMessages session messages w).2).1
   = (getParticipantState sessionId participantId w).1
   ∧ (getParticipantState sessionId participantId
        (addMessage session message w).2).1
     = (getParticipantState sessionId participantId w).1
   ∧ (getParticipantState sessionId participantId
        (loadMessages session w).2).1
     = (getParticipantState sessionId participantId w).1
   ∧ (getParticipantState sessionId participantId
        (clearMessages session w).2).1
     = (getParticipantState sessionId participantId w).1
   ∧ (getParticipantState sessionId participantId (clearAllCache w).2).1
     = (getParticipantState sessionId participantId w).1)
  ∧ ((loadMessages session
        (updateParticipantState sessionId participantId state w).2).1
     = (loadMessages session w).1
     ∧ (loadMessages session
          (getParticipantState sessionId participantId w).2).1
       = (loadMessages session w).1).
Proof.
  pose proof (stateKey_getCacheKey sessionId participantId session) as Hkey.
  assert (getCacheKey session ≠ stateKey sessionId participantId) as Hkey'
    by done.
  pose proof (stateKey_not_cache sessionId participantId) as Hprefix.
  split; split_and!;
    (apply getParticipantState_reads || apply loadMessages_reads).
  - exact (proj1 (saveMessages_frame _ _ _ _ Hkey)).
  - exact (proj2 (saveMessages_frame _ _ _ _ Hkey)).
  - exact (proj1 (addMessage_any_frame _ _ _ _ _ Hkey)).
  - exact (proj2 (addMessage_any_frame _ _ _ _ _ Hkey)).
  - exact (proj1 (loadMessages_frame _ _ _ Hkey)).
  - exact (proj2 (loadMessages_frame _ _ _ Hkey)).
  - by apply removeItem_frame.
  - by destruct w as [[|items full] c].
  - exact (proj1 (clearAllCache_frame _ _ Hprefix)).
  - exact (proj2 (clearAllCache_frame _ _ Hprefix)).
  - exact (proj1 (updateParticipantState_frame _ _ _ _ _ Hkey')).
  - exact (proj2 (updateParticipantState_frame _ _ _ _ _ Hkey')).
  - exact (proj1 (getParticipantState_frame _ _ _ _ Hkey')).
  - exact (proj2 (getParticipantState_frame _ _ _ _ Hkey')).
Qed.

(** The key of a participant's state does not tell where the session id
    ends: two pairs that differ in where the underscore falls share one
    record. *)
Theorem stateKey_collision s p q state w :
  stateKey (s +:+ "_" +:+ p) q = stateKey s (p +:+ "_" +:+ q)
  ∧ updateParticipantState (s +:+ "_" +:+ p) q state w
    = updateParticipantState s (p +:+ "_" +:+ q) state w
  ∧ getParticipantState (s +:+ "_" +:+ p) q w
    = getParticipantState s (p +:+ "_" +:+ q) w.
Proof.
  assert (stateKey (s +:+ "_" +:+ p) q = stateKey s (p +:+ "_" +:+ q)) as Hk.
  { unfold stateKey. by rewrite !string_app_assoc. }
  split_and!; [done|..].
  - unfold updateParticipantState. by rewrite Hk.
  - unfold getParticipantState. by rewrite Hk.
Qed.

(** An update merges: a flag it gives is set, a flag it gives as
    [undefined] is dropped, a flag it does not mention stays, every other
    property stays, and [lastUpdated] is the time of the update. *)
Theorem updateParticipantState_merges sessionId participantId state w items :
  localStorage w = Avail items false →
  (∀ t, items !! stateKey sessionId participantId = Some (NotJson t) →
        t = ""%string) →
  let old := spread (current_state
                       (items !! stateKey sessionId participantId)) [] in
  let w' := (updateParticipantState sessionId participantId state w).2 in
  ∃ o, getParticipantState sessionId participantId w' = (Ok (JObj o), w')
       ∧ obj_get "isMuted" o
         = merge_flag (isMuted state) (obj_get "isMuted" old)
       ∧ obj_get "isKicked" o
         = merge_flag (isKicked state) (obj_get "isKicked" old)
       ∧ obj_get "lastUpdated" o = Some (JNum (clock w))
       ∧ (∀ k, k ≠ "isMuted"%string → k ≠ "isKicked"%string →
               k ≠ "lastUpdated"%string → obj_get k o = obj_get k old).
Proof.
  destruct w as [ls c]; simpl. intros -> Hitem.
  rewrite updateParticipantState_Avail by done. simpl.
  eexists. split_and!.
  - apply getParticipantState_fresh; [apply lookup_insert_eq|].
    apply obj_get_set_eq.
  - unfold updatedState. rewrite obj_get_set_ne by done.
    rewrite obj_get_spread_flag_ne by done. apply obj_get_spread_flag_eq.
  - unfold updatedState. rewrite obj_get_set_ne by done.
    by rewrite obj_get_spread_flag_eq, obj_get_spread_flag_ne.
  - apply obj_get_set_eq.
  - intros k Hk1 Hk2 Hk3. unfold updatedState.
    rewrite obj_get_set_ne by done.
    by rewrite !obj_get_spread_flag_ne.
Qed.

Lemma getParticipantState_stamped sessionId participantId items full c o t :
  items !! stateKey sessionId participantId = Some (Json (JObj o)) →
  obj_get "lastUpdated" o = Some (JNum t) →
  getParticipantState sessionId participantId (mkWorld (Avail items full) c)
  = if 60 * 60 * 1000 <? c - t
    then (Ok (JObj []),
          mkWorld (Avail (delete (stateKey sessionId participantId) items)
                         full) c)
    else (Ok (JObj o), mkWorld (Avail items full) c).
Proof.
  intros Hitem Hlast.
  unfold getParticipantState, try_catch, bind, getItem, lift, Date_now; simpl.
  rewrite Hitem; simpl. rewrite Hlast; simpl.
  destruct (Z.eqb_spec t 0) as [->|]; simpl;
    by destruct (60 * 60 * 1000 <? _).
Qed.

(** On a medium that takes the write, where the participant's record, if
    any, is JSON (or the empty string), a participant's state lasts one
    hour: read later than that after the update it is gone, [{}] comes back
    and the record is removed; read within the hour it comes back as
    written. *)
Theorem participant_state_expires
    sessionId participantId state w items later :
  localStorage w = Avail items false →
  (∀ t, items !! stateKey sessionId participantId = Some (NotJson t) →
        t = ""%string) →
  let written := updatedState
        (current_state (items !! stateKey sessionId participantId))
        state (clock w) in
  let w' := at_time later
              (updateParticipantState sessionId participantId state w).2 in
  (later - clock w > 60 * 60 * 1000 →
     getParticipantState sessionId participantId w'
     = (Ok (JObj []), (removeItem (stateKey sessionId participantId) w').2)
     ∧ item (stateKey sessionId participantId)
            (getParticipantState sessionId participantId w').2 = None)
  ∧ (later - clock w <= 60 * 60 * 1000 →
     getParticipantState sessionId participantId w'
     = (Ok (JObj written), w')
     ∧ item (stateKey sessionId participantId) w'
       = Some (Json (JObj written))).
Proof.
  destruct w as [ls c]; simpl. intros -> Hitem.
  rewrite updateParticipantState_Avail by done. unfold at_time; simpl.
  erewrite getParticipantState_stamped;
    [|apply lookup_insert_eq|apply obj_get_set_eq].
  split; intros Hlater.
  - destruct (Z.ltb_spec (60 * 60 * 1000) (later - c)); [|lia].
    split; [done|]. unfold item; simpl. apply lookup_delete_eq.
  - destruct (Z.ltb_spec (60 * 60 * 1000) (later - c)); [lia|].
    split; [done|]. unfold item; simpl. apply lookup_insert_eq.
Qed.

(** Saved messages last twenty-four hours: loaded later than that after
    the save, nothing comes back and the record is removed; loaded within
    that time, what was saved comes back and the record stays. *)
Theorem saved_messages_expire sessionId messages w items later :
  localStorage w = Avail items false →
  Date_parse (toISOString_of (clock w)) = Some (clock w) →
  let w' := at_time later (saveMessages sessionId messages w).2 in
  (later - clock w > CACHE_EXPIRY →
     loadMessages sessionId w'
     = (Ok (JArr []), (removeItem (getCacheKey sessionId) w').2)
     ∧ item (getCacheKey sessionId) (loadMessages sessionId w').2 = None)
  ∧ (later - clock w <= CACHE_EXPIRY →
     loadMessages sessionId w' = (Ok (JArr messages), w')).
Proof.
  destruct w as [ls c]; simpl. intros -> Hiso.
  rewrite saveMessages_Avail. unfold at_time; simpl.
  rewrite loadMessages_Avail, lookup_insert_eq; simpl.
  unfold expired; simpl. rewrite Hiso; simpl.
  split; intros Hlater.
  - destruct (Z.ltb_spec CACHE_EXPIRY (later - c)); [|lia].
    split; [done|]. unfold item; simpl. apply lookup_delete_eq.
  - destruct (Z.ltb_spec CACHE_EXPIRY (later - c)); [lia|done].
Qed.

(** After a clear, nothing loads: [clearMessages] for its session,
    [clearAllCache] for every session. *)
Theorem cleared_sessions_load_nothing w items full :
  localStorage w = Avail items full →
  (∀ sessionId,
      (clearMessages sessionId w).1 = Ok tt
      ∧ loadMessages sessionId (clearMessages sessionId w).2
        = (Ok (JArr []), (clearMessages sessionId w).2))
  ∧ (clearAllCache w).1 = Ok tt
  ∧ (∀ sessionId,
      loadMessages sessionId (clearAllCache w).2
      = (Ok (JArr []), (clearAllCache w).2)).
Proof.
  destruct w as [ls c]; simpl. intros ->. split_and!.
  - intros sessionId. split; [done|].
    unfold clearMessages, removeItem; simpl.
    by rewrite loadMessages_Avail, lookup_delete_eq.
  - by rewrite clearAllCache_Avail.
  - intros sessionId.
    pose proof (clearAllCache_removes (getCacheKey sessionId)
                  (mkWorld (Avail items full) c)
                  (getCacheKey_prefix sessionId)) as Hgone.
    rewrite clearAllCache_Avail in *. unfold item in Hgone; simpl in *.
    by rewrite loadMessages_Avail, Hgone.
Qed.
End StoreTheorems.

(* ===================================================================== *)
(** * When the enrichment pass throws *)
(* ===================================================================== *)

Section MapMThrows.
Context {A B : Type} (f : A -> result B).

Lemma mapM_Ok_Forall xs :
  (∃ ys, mapM f xs = Ok ys) ↔ Forall (fun x => ∃ y, f x = Ok y) xs.
Proof.
  split; [|apply mapM_total].
  intros [ys Hys%mapM_Ok]. apply Forall_forall. intros x Hx.
  destruct (Forall2_elem_of_l _ _ _ _ Hys Hx) as (y & _ & Hy). eauto.
Qed.

Lemma mapM_Throw xs e :
  mapM f xs = Throw e → ∃ x, x ∈ xs ∧ f x = Throw e.
Proof.
  induction xs as [|x xs IH]; simpl; [done|].
  destruct (f x) as [y|e'] eqn:Hx.
  - destruct (mapM f xs) as [ys|e'']; [done|].
    intros [= ->]. destruct IH as (x' & ? & ?); [done|].
    exists x'. split; [by right|done].
  - intros [= ->]. exists x. split; [left|done].
Qed.
End MapMThrows.

Section EnrichThrows.
Context `{Platform}.

Lemma snapshot_of_Ok tgt :
  (∃ r, snapshot_of tgt = Ok r) ↔ is_Some (ChatMessage.timestamp tgt).
Proof.
  unfold snapshot_of. destruct (ChatMessage.timestamp tgt) as [t|]; simpl.
  - split; [by eexists|by eexists].
  - split; [by intros [? ?]|by intros [? ?]].
Qed.

Lemma enhance_Throw map msg e : enhance map msg = Throw e → e = RangeError.
Proof.
  unfold enhance. destruct (reply_target map msg) as [tgt|]; [|done].
  unfold snapshot_of. destruct (ChatMessage.timestamp tgt); simpl; [done|].
  by intros [= <-].
Qed.

(** On cached messages that are records of the [CachedMessage] interface,
    the enrichment pass completes exactly when every reply that resolves
    names a message with a valid date; when it does not complete, what it
    throws is the RangeError of [toISOString]. *)
Theorem enrich_completes_iff live cached :
  ((∃ out, enrich live cached = Ok out)
   ↔ targets_dated (messageMap (allMessages live cached))
                   (allMessages live cached))
  ∧ (∀ e, enrich live cached = Throw e → e = RangeError).
Proof.
  split.
  - transitivity (∃ pre, enhanced live cached = Ok pre).
    { unfold enrich. destruct (enhanced live cached) as [pre|e].
      - split; by eexists.
      - split; by intros [? ?]. }
    unfold enhanced. rewrite mapM_Ok_Forall, Forall_forall.
    unfold targets_dated. split.
    + intros Hall m tgt Hm Htgt. destruct (Hall m Hm) as [m' Hm'].
      apply enhance_Ok in Hm' as [[Hnone _]|(tgt' & r & Htgt' & Hr & _)];
        [congruence|].
      apply snapshot_of_Ok. exists r. congruence.
    + intros Hdated m Hm. unfold enhance.
      destruct (reply_target _ m) as [tgt|] eqn:Htgt; [|by eexists].
      destruct (proj2 (snapshot_of_Ok tgt) (Hdated m tgt Hm Htgt)) as [r ->].
      by eexists.
  - intros e. unfold enrich, enhanced.
    destruct (mapM _ _) as [pre|e'] eqn:Hmap; [done|].
    intros [= ->]. apply mapM_Throw in Hmap as (x & _ & Hx).
    by eapply enhance_Throw.
Qed.
End EnrichThrows.

(* ===================================================================== *)
(** * The caching effect *)
(* ===================================================================== *)


(** On a sequence without [null] the scan for an id does not throw, and it
    finds an entry exactly when the id is among the stored ids. *)
Lemma find_id_stored id l :
  Forall (fun m => m ≠ JNull) l →
  (find_id id l = Ok None ∧ id ∉ stored_ids l)
  ∨ (∃ x, find_id id l = Ok (Some x) ∧ id ∈ stored_ids l).
Proof.
  induction 1 as [|m l Hm Hl IH]; simpl.
  - left. split; [done|]. unfold stored_ids. simpl. apply not_elem_of_nil.
  - unfold stored_ids in *. destruct m as [|b|n|s|a|o]; simpl; try done.
    destruct (obj_get "id" o) as [[|b|n|s|a|o']|]; simpl; try done.
    destruct (String.eqb_spec s id) as [->|Hne].
    + right. eexists. split; [done|left].
    + destruct IH as [[Hnone Hout]|(x & Hx & Hin)].
      * left. split; [done|]. by apply not_elem_of_cons.
      * right. exists x. split; [done|by right].
Qed.

Section CachingEffectFacts.
Context `{Platform}.

Lemma cached_copy_Ok msg :
  is_Some (ChatMessage.timestamp msg) →
  ∃ v, cached_copy msg = Ok v ∧ value_id v = Some (ChatMessage.id msg)
       ∧ v ≠ JNull.
Proof.
  intros [t Ht]. unfold cached_copy. rewrite Ht. simpl. by eexists.
Qed.

Lemma settled_load sessionId existing w :
  settled sessionId existing w →
  (loadMessages sessionId w).1 = Ok (JArr existing)
  ∧ (loadMessages sessionId w).2 = w.
Proof. intros (_ & -> & _). done. Qed.

(** One message: it is stored at the end unless its id is there. *)
Lemma addMessage_any_settled sessionId existing w id v :
  settled sessionId existing w → value_id v = Some id → v ≠ JNull →
  ∃ w', addMessage_any sessionId id v w = (Ok tt, w')
        ∧ settled sessionId
            (if decide (id ∈ stored_ids existing) then existing
             else existing ++ [v]) w'.
Proof.
  intros Hs Hid Hv. destruct (settled_load _ _ _ Hs) as [Hl1 Hl2].
  destruct Hs as ([items Hitems] & Hload & Hnonnull & Hiso).
  rewrite (addMessage_any_run _ _ _ _ _ Hl1), Hl2.
  destruct (find_id_stored id existing Hnonnull)
    as [[-> Hout]|(x & -> & Hin)].
  - rewrite decide_False by done.
    destruct w as [ls c]. simpl in Hitems, Hiso. subst ls.
    rewrite saveMessages_Avail. eexists. split; [done|].
    split_and!; simpl; [by eexists| |by apply Forall_app; split;
                                      [|constructor]|done].
    rewrite loadMessages_Avail, lookup_insert_eq. simpl.
    unfold expired. simpl. rewrite Hiso. simpl. by rewrite Z.sub_diag.
  - rewrite decide_True by done. exists w. split; [done|].
    split_and!; by eauto.
Qed.

Lemma forEach_cons {A} (f : A -> M unit) x xs w :
  forEach f (x :: xs) w
  = match f x w with
    | (Ok _, w') => forEach f xs w'
    | (Throw e, w') => (Throw e, w')
    end.
Proof. done. Qed.


Lemma cacheMessages_cons sessionId msg msgs w v :
  cached_copy msg = Ok v →
  cacheMessages sessionId (msg :: msgs) w
  = match addMessage_any sessionId (ChatMessage.id msg) v w with
    | (Ok _, w') => cacheMessages sessionId msgs w'
    | (Throw e, w') => (Throw e, w')
    end.
Proof.
  intros Hv. unfold cacheMessages. rewrite forEach_cons.
  unfold bind at 1, lift. by rewrite Hv.
Qed.


(** Messages whose ids are all stored leave a settled store alone. *)
Lemma cacheMessages_known sessionId msgs existing w :
  settled sessionId existing w →
  Forall (fun m => is_Some (ChatMessage.timestamp m)) msgs →
  (∀ m, m ∈ msgs → ChatMessage.id m ∈ stored_ids existing) →
  cacheMessages sessionId msgs w = (Ok tt, w).
Proof.
  intros Hs Hvalid Hknown. induction Hvalid as [|msg msgs Hmsg _ IH]; [done|].
  destruct (cached_copy_Ok msg Hmsg) as (v & Hv & Hid & Hnn).
  destruct (addMessage_any_settled _ _ _ _ _ Hs Hid Hnn) as (w1 & Hw1 & Hs1).
  rewrite decide_True in Hs1 by (apply Hknown; left).
  rewrite (cacheMessages_cons _ _ _ _ _ Hv).
  assert (w1 = w) as ->.
  { destruct (settled_load _ _ _ Hs) as [Hl1 Hl2].
    rewrite (addMessage_any_run _ _ _ _ _ Hl1), Hl2 in Hw1.
    destruct Hs as (_ & _ & Hnonnull & _).
    destruct (find_id_stored (ChatMessage.id msg) existing Hnonnull)
      as [[_ Hout]|(x & Hx & _)].
    - destruct Hout. apply Hknown. left.
    - rewrite Hx in Hw1. by injection Hw1. }
  rewrite Hw1. apply IH. intros m Hm. apply Hknown. by right.
Qed.
End CachingEffectFacts.

Section CachingEffectTheorems.
Context `{Platform}.









End CachingEffectTheorems.

Section PanelFacts.
Context `{Trim}.

Lemma handleSendMessage_run r p :
  handleSendMessage r p
  = if nothing_to_send r then ([], p)
    else ([match selectedFile r with
           | Some file => media_message r file
           | None => text_message r
           end],
          mkPanel "" None false None
                  (isFullScreen p) (chatWidth p) (isResizing p)).
Proof.
  unfold handleSendMessage. destruct (nothing_to_send r); [done|].
  by destruct (selectedFile r).
Qed.

Lemma nothing_to_send_file r file :
  selectedFile r = Some file → nothing_to_send r = false.
Proof.
  intros Hfile. unfold nothing_to_send. rewrite Hfile. simpl.
  by rewrite andb_false_r.
Qed.

Lemma nothing_to_send_text r :
  selectedFile r = None →
  nothing_to_send r = negb (truthy (JStr (trim (newMessage r)))).
Proof.
  intros Hfile. unfold nothing_to_send. rewrite Hfile. simpl.
  by rewrite andb_true_r.
Qed.

(** What one event does, by what it sent. *)
Lemma step_cases p e :
  (step p e).1 = []
  ∨ (nothing_to_send p = false
     ∧ (step p e).1 = [match selectedFile p with
                       | Some file => media_message p file
                       | None => text_message p
                       end]
     ∧ (step p e).2 = cleared p).
Proof.
  unfold step.
  destruct e as [|iw cx| |v|key shift| |files| |file| | |message]; simpl.
  - left. by destruct (isFullScreen p).
  - left. unfold handleMouseMove. by destruct (isResizing p).
  - left. by destruct (isResizing p).
  - by left.
  - unfold onKeyPress.
    destruct (String.eqb key "Enter" && negb shift); [|by left].
    rewrite handleSendMessage_run.
    destruct (nothing_to_send p) eqn:Hn; [by left|by right].
  - destruct (nothing_to_send p) eqn:Hn; [by left|].
    rewrite handleSendMessage_run, Hn. by right.
  - left. unfold handleFileSelect.
    by destruct (first_file files).
  - left. by destruct (preview_rendered p).
  - destruct (preview_rendered p) eqn:Hr; [|by left].
    unfold onSend, and_then. simpl. rewrite handleSendMessage_run.
    destruct (nothing_to_send p) eqn:Hn; [by left|by right].
  - by left.
  - left. by destruct (given (replyingTo p)).
  - left. by destruct (reply_rendered message).
Qed.

Lemma step_sent p e m :
  m ∈ (step p e).1 →
  nothing_to_send p = false
  ∧ m = match selectedFile p with
        | Some file => media_message p file
        | None => text_message p
        end
  ∧ (step p e).2 = cleared p.
Proof.
  destruct (step_cases p e) as [->|(Hn & -> & Hp)].
  - by intros ?%elem_of_nil.
  - by intros ->%list_elem_of_singleton.
Qed.

Lemma step_chatWidth p e :
  300 ≤ chatWidth p ≤ 800 → 300 ≤ chatWidth (step p e).2 ≤ 800.
Proof.
  intros Hp. unfold step.
  destruct e as [|iw cx| |v|key shift| |files| |file| | |message]; simpl.
  - by destruct (isFullScreen p).
  - unfold handleMouseMove. destruct (isResizing p); simpl; lia.
  - by destruct (isResizing p).
  - done.
  - unfold onKeyPress.
    destruct (String.eqb key "Enter" && negb shift); [|done].
    rewrite handleSendMessage_run. by destruct (nothing_to_send p).
  - destruct (nothing_to_send p) eqn:Hn; [done|].
    by rewrite handleSendMessage_run, Hn.
  - unfold handleFileSelect. by destruct (first_file files).
  - by destruct (preview_rendered p).
  - destruct (preview_rendered p); [|done].
    unfold onSend, and_then. simpl. rewrite handleSendMessage_run.
    by destruct (nothing_to_send p).
  - done.
  - by destruct (given (replyingTo p)).
  - by destruct (reply_rendered message).
Qed.

Lemma step_preview p e :
  showMediaPreview p = given (selectedFile p) →
  showMediaPreview (step p e).2 = given (selectedFile (step p e).2).
Proof.
  intros Hp. unfold step.
  destruct e as [|iw cx| |v|key shift| |files| |file| | |message]; simpl.
  - by destruct (isFullScreen p).
  - unfold handleMouseMove. by destruct (isResizing p).
  - by destruct (isResizing p).
  - done.
  - unfold onKeyPress.
    destruct (String.eqb key "Enter" && negb shift); [|done].
    rewrite handleSendMessage_run. by destruct (nothing_to_send p).
  - destruct (nothing_to_send p) eqn:Hn; [done|].
    by rewrite handleSendMessage_run, Hn.
  - unfold handleFileSelect. by destruct (first_file files).
  - by destruct (preview_rendered p).
  - destruct (preview_rendered p) eqn:Hr; [|done].
    unfold onSend, and_then. simpl. rewrite handleSendMessage_run.
    unfold preview_rendered in Hr. apply andb_true_iff in Hr as [_ Hfile].
    destruct (selectedFile p) as [selected|] eqn:Hsel; [|done].
    by rewrite (nothing_to_send_file p selected Hsel).
  - done.
  - by destruct (given (replyingTo p)).
  - by destruct (reply_rendered message).
Qed.

Lemma run_cons p e es :
  run p (e :: es)
  = ((step p e).1 ++ (run (step p e).2 es).1, (run (step p e).2 es).2).
Proof.
  simpl. destruct (step p e) as [s1 p1]. simpl.
  by destruct (run p1 es).
Qed.

Lemma run_invariant (P : Panel → Prop) :
  (∀ p e, P p → P (step p e).2) →
  ∀ es p, P p → P (run p es).2.
Proof.
  intros Hstep es. induction es as [|e es IH]; intros p Hp; [done|].
  rewrite run_cons. simpl. by apply IH, Hstep.
Qed.

(** The width of the panel stays between 300 and 800 pixels, whatever the
    user does and wherever the pointer goes. *)
Theorem chatWidth_bounded (es : list Event) :
  300 ≤ chatWidth (run initial es).2 ≤ 800.
Proof.
  apply (run_invariant (fun p => 300 ≤ chatWidth p ≤ 800)).
  - apply step_chatWidth.
  - simpl. lia.
Qed.

(** The preview is open exactly while a file is selected, whatever the
    user does. *)
Theorem preview_open_iff_file_selected (es : list Event) :
  showMediaPreview (run initial es).2
  = given (selectedFile (run initial es).2).
Proof.
  apply (run_invariant
           (fun p => showMediaPreview p = given (selectedFile p))).
  - apply step_preview.
  - done.
Qed.

(** Every message the panel sends, in any sequence of events from any
    state, is a text that is not blank and has no attachment, or a media
    message named after its file, which is its attachment. *)
Theorem sent_messages_well_formed (p : Panel) (es : list Event) (m : Sent) :
  m ∈ (run p es).1 →
  (sent_type m = text
   ∧ sent_attachment m = None
   ∧ trim (sent_content m) ≠ "")
  ∨ (sent_type m = media
     ∧ ∃ file, sent_attachment m = Some [("media", file)]
               ∧ sent_content m = File.name file).
Proof.
  revert p. induction es as [|e es IH]; intros p; [by intros ?%elem_of_nil|].
  rewrite run_cons. simpl. intros [Hm|Hm]%elem_of_app; [|by eapply IH].
  apply step_sent in Hm as (Hn & -> & _).
  destruct (selectedFile p) as [file|] eqn:Hfile.
  - right. split; [done|]. by exists file.
  - left. split_and!; [done..|].
    rewrite (nothing_to_send_text p Hfile) in Hn.
    intros Hblank. simpl in Hblank, Hn. by rewrite Hblank in Hn.
Qed.

(** An event that sends sends one message and clears the composer: the
    text, the selected file, the reply target and the preview. With a file
    selected the message is the media message of that file, and the text
    typed is not sent. *)
Theorem send_clears_composer (p : Panel) (e : Event) :
  (step p e).1 ≠ [] →
  (step p e).2 = cleared p
  ∧ (step p e).1 = [match selectedFile p with
                    | Some file => media_message p file
                    | None => text_message p
                    end].
Proof.
  intros Hsent.
  destruct (step_cases p e) as [Hnil|(_ & Hm & Hp)]; done.
Qed.

(** Sending from the preview sends the file the panel has selected, not
    the file the preview hands back. *)
Theorem onSend_sends_selected_file (p : Panel) (selected file : File.t) :
  showMediaPreview p = true →
  selectedFile p = Some selected →
  step p (PreviewSend file) = ([media_message p selected], cleared p).
Proof.
  intros Hshow Hsel. unfold step. simpl.
  unfold preview_rendered. rewrite Hshow, Hsel. simpl.
  unfold onSend, and_then. simpl. rewrite handleSendMessage_run.
  by rewrite (nothing_to_send_file p selected Hsel), Hsel.
Qed.
End PanelFacts.

Section PanelInstances.
#[local] Existing Instance ReferenceTrim.trim_latin1.
Import PanelSample.

(** [sent_messages_well_formed] applies to the text sent with Enter. *)
Lemma sent_messages_well_formed_witness :
  text_message typing
    ∈ (run typing [Change "hello"; KeyPress "Enter" false]).1
  ∧ ((sent_type (text_message typing) = text
      ∧ sent_attachment (text_message typing) = None
      ∧ trim (sent_content (text_message typing)) ≠ "")
     ∨ (sent_type (text_message typing) = media
        ∧ ∃ file,
            sent_attachment (text_message typing) = Some [("media", file)]
            ∧ sent_content (text_message typing) = File.name file)).
Proof.
  assert (text_message typing
            ∈ (run typing [Change "hello"; KeyPress "Enter" false]).1)
    as Hin by (vm_compute; apply list_elem_of_here).
  split; [exact Hin|].
  exact (sent_messages_well_formed typing _ _ Hin).
Defined.

(** [send_clears_composer] applies to a click on the send button. *)
Lemma send_clears_composer_witness :
  (step typing ClickSend).1 ≠ []
  ∧ (step typing ClickSend).2 = cleared typing
  ∧ (step typing ClickSend).1 = [text_message typing].
Proof.
  assert ((step typing ClickSend).1 ≠ []) as Hsent by (by vm_compute).
  split; [exact Hsent|].
  exact (send_clears_composer typing ClickSend Hsent).
Defined.

(** [onSend_sends_selected_file] applies to a preview that hands back
    another file. *)
Lemma onSend_sends_selected_file_witness :
  showMediaPreview previewing = true
  ∧ selectedFile previewing = Some photo
  ∧ step previewing (PreviewSend other)
    = ([media_message previewing photo], cleared previewing).
Proof.
  split_and!; [reflexivity..|].
  by apply (onSend_sends_selected_file previewing photo other).
Defined.
End PanelInstances.

Section StoreInstances.
#[local] Existing Instance Reference.platform.
Import Sample.
Local Open Scope string_scope.

Lemma sample_settled : settled "s1" [] (empty_store T0).
Proof.
  split_and!.
  - by eexists.
  - reflexivity.
  - apply Forall_nil_2.
  - by vm_compute.
Qed.

Lemma sample_state_parses t :
  ({[stateKey "s" "p" := Json (JObj muted)]} : gmap string stored)
    !! stateKey "s" "p" = Some (NotJson t) →
  t = "".
Proof. by rewrite lookup_singleton_eq. Qed.

(** [sessions_isolated] on two sessions of one store. *)
Lemma sessions_isolated_witness :
  "s2" ≠ "s1"
  ∧ (loadMessages "s2"
       (saveMessages "s1" [json_of_message m1] (empty_store T0)).2).1
    = (loadMessages "s2" (empty_store T0)).1.
Proof.
  assert ("s2" ≠ "s1") as Hne by done.
  split; [exact Hne|].
  exact (proj1 (sessions_isolated "s1" "s2" m1 [json_of_message m1]
                                  (empty_store T0) Hne)).
Defined.

(** [updateParticipantState_merges]: kicking a muted participant keeps
    the mute. *)
Lemma updateParticipantState_merges_witness :
  localStorage (state_store T0)
  = Avail {[stateKey "s" "p" := Json (JObj muted)]} false
  ∧ ∃ o, (getParticipantState "s" "p"
            (updateParticipantState "s" "p" kick (state_store T0)).2).1
         = Ok (JObj o)
         ∧ obj_get "isMuted" o = Some (JBool true)
         ∧ obj_get "isKicked" o = Some (JBool true)
         ∧ obj_get "lastUpdated" o = Some (JNum T0).
Proof.
  split; [reflexivity|].
  pose proof (updateParticipantState_merges "s" "p" kick (state_store T0)
                _ eq_refl sample_state_parses) as Hm.
  cbv zeta in Hm. destruct Hm as (o & Hget & Hmuted & Hkicked & Hlast & _).
  exists o. split_and!.
  - by rewrite Hget.
  - rewrite Hmuted, lookup_singleton_eq. reflexivity.
  - rewrite Hkicked. reflexivity.
  - exact Hlast.
Defined.

(** [participant_state_expires]: two hours after the update the state is
    gone, one hour after it is still there. *)
Lemma participant_state_expires_witness :
  localStorage (state_store T0)
  = Avail {[stateKey "s" "p" := Json (JObj muted)]} false
  ∧ (getParticipantState "s" "p"
       (at_time (T0 + 2 * hour)
          (updateParticipantState "s" "p" kick (state_store T0)).2)).1
    = Ok (JObj [])
  ∧ ∃ written,
      (getParticipantState "s" "p"
         (at_time (T0 + hour)
            (updateParticipantState "s" "p" kick (state_store T0)).2)).1
      = Ok (JObj written).
Proof.
  split; [reflexivity|]. split.
  - pose proof (participant_state_expires "s" "p" kick (state_store T0)
                  _ (T0 + 2 * hour) eq_refl sample_state_parses) as He.
    cbv zeta in He. destruct He as [Hgone _].
    destruct Hgone as [-> _]; [by vm_compute|done].
  - pose proof (participant_state_expires "s" "p" kick (state_store T0)
                  _ (T0 + hour) eq_refl sample_state_parses) as He.
    cbv zeta in He. destruct He as [_ Hkept].
    destruct Hkept as [-> _]; [by vm_compute|]. by eexists.
Defined.

(** [saved_messages_expire]: twenty-five hours after the save nothing
    loads, twenty-four hours after it the messages load. *)
Lemma saved_messages_expire_witness :
  localStorage (empty_store T0) = Avail ∅ false
  ∧ Date_parse (toISOString_of (clock (empty_store T0)))
    = Some (clock (empty_store T0))
  ∧ (loadMessages "s1"
       (at_time (T0 + 25 * hour)
          (saveMessages "s1" [json_of_message m1] (empty_store T0)).2)).1
    = Ok (JArr [])
  ∧ (loadMessages "s1"
       (at_time (T0 + 24 * hour)
          (saveMessages "s1" [json_of_message m1] (empty_store T0)).2)).1
    = Ok (JArr [json_of_message m1]).
Proof.
  assert (Date_parse (toISOString_of (clock (empty_store T0)))
          = Some (clock (empty_store T0))) as Hiso by (by vm_compute).
  split; [reflexivity|]. split; [exact Hiso|]. split.
  - pose proof (saved_messages_expire "s1" [json_of_message m1]
                  (empty_store T0) _ (T0 + 25 * hour) eq_refl Hiso) as He.
    cbv zeta in He. destruct He as [Hgone _].
    destruct Hgone as [-> _]; [by vm_compute|done].
  - pose proof (saved_messages_expire "s1" [json_of_message m1]
                  (empty_store T0) _ (T0 + 24 * hour) eq_refl Hiso) as He.
    cbv zeta in He. destruct He as [_ Hkept].
    rewrite Hkept; [done|by vm_compute].
Defined.

(** [cleared_sessions_load_nothing] on a store that holds a record. *)
Lemma cleared_sessions_load_nothing_witness :
  localStorage
    (store_with (record "2023-11-14T22:13:20.000Z" [json_of_message m1]) T0)
  = Avail {[getCacheKey "s1" :=
              Json (record "2023-11-14T22:13:20.000Z" [json_of_message m1])]}
          false
  ∧ (loadMessages "s1"
       (clearAllCache
          (store_with (record "2023-11-14T22:13:20.000Z"
                              [json_of_message m1]) T0)).2).1
    = Ok (JArr []).
Proof.
  split; [reflexivity|].
  destruct (cleared_sessions_load_nothing
              (store_with (record "2023-11-14T22:13:20.000Z"
                                  [json_of_message m1]) T0)
              _ false eq_refl) as (_ & _ & Hall).
  by rewrite Hall.
Defined.








End StoreInstances.

Section RecordTheorems.
Context `{Platform}.

Lemma value_id_message (message : CachedMessage.t) :
  value_id (json_of_message message) = Some (CachedMessage.id message)
  ∧ json_of_message message ≠ JNull.
Proof. done. Qed.

(** A message whose id is not cached goes to the end of the cached
    messages, which keep their order. *)
Theorem addMessage_appends sessionId message existing w :
  settled sessionId existing w →
  CachedMessage.id message ∉ stored_ids existing →
  ∃ w', addMessage sessionId message w = (Ok tt, w')
        ∧ loadMessages sessionId w'
          = (Ok (JArr (existing ++ [json_of_message message])), w').
Proof.
  intros Hs Hnew. rewrite addMessage_as_any.
  destruct (value_id_message message) as [Hid Hnonnull].
  destruct (addMessage_any_settled sessionId existing w _ _ Hs Hid Hnonnull)
    as (w' & Hrun & Hs').
  rewrite decide_False in Hs' by done.
  exists w'. split; [done|]. by destruct Hs' as (_ & Hload & _).
Qed.

(** A participant's record that is not JSON stays for good: every update
    is dropped without a word, and every read gives [{}]. *)
Theorem corrupt_state_blocks_updates
    sessionId participantId state w items full t :
  localStorage w = Avail items full →
  items !! stateKey sessionId participantId = Some (NotJson t) →
  t ≠ ""%string →
  updateParticipantState sessionId participantId state w = (Ok tt, w)
  ∧ getParticipantState sessionId participantId w = (Ok (JObj []), w).
Proof.
  destruct w as [ls c]. simpl. intros -> Hitem Ht.
  assert (String.eqb t "" = false) as Hneq by by apply String.eqb_neq.
  unfold updateParticipantState, getParticipantState, try_catch, bind,
    getItem, lift. simpl. rewrite Hitem. simpl. rewrite Hneq.
  unfold item_or_empty, item_truthy. by rewrite Hneq.
Qed.

(** A session's record that is not JSON loads as no messages and stays,
    until the next message is added: that one replaces it. *)
Theorem corrupt_messages_replaced sessionId message w items t :
  localStorage w = Avail items false →
  items !! getCacheKey sessionId = Some (NotJson t) →
  t ≠ ""%string →
  Date_parse (toISOString_of (clock w)) = Some (clock w) →
  loadMessages sessionId w = (Ok (JArr []), w)
  ∧ ∃ w', addMessage sessionId message w = (Ok tt, w')
          ∧ loadMessages sessionId w'
            = (Ok (JArr [json_of_message message]), w').
Proof.
  intros Hls Hitem Ht Hiso.
  assert (loadMessages sessionId w = (Ok (JArr []), w)) as Hload.
  { destruct w as [ls c]. simpl in Hls. subst ls.
    assert (String.eqb t "" = false) as Hneq by by apply String.eqb_neq.
    unfold loadMessages, try_catch, bind, getItem, lift. simpl.
    rewrite Hitem. simpl. by rewrite Hneq. }
  split; [done|].
  apply (addMessage_appends sessionId message []).
  - split_and!; [by eexists|done|apply Forall_nil_2|done].
  - apply not_elem_of_nil.
Qed.
End RecordTheorems.

Section RecordInstances.
#[local] Existing Instance Reference.platform.
Import Sample.
Local Open Scope string_scope.

(** [addMessage_appends] on an empty store. *)
Lemma addMessage_appends_witness :
  settled "s1" [] (empty_store T0)
  ∧ (CachedMessage.id m1 ∉ stored_ids [])
  ∧ ∃ w', addMessage "s1" m1 (empty_store T0) = (Ok tt, w')
          ∧ loadMessages "s1" w' = (Ok (JArr [json_of_message m1]), w').
Proof.
  assert (CachedMessage.id m1 ∉ stored_ids []) as Hnew
    by apply not_elem_of_nil.
  split; [exact sample_settled|]. split; [exact Hnew|].
  exact (addMessage_appends "s1" m1 [] (empty_store T0)
           sample_settled Hnew).
Defined.

(** [corrupt_state_blocks_updates] on a record that is not JSON. *)
Lemma corrupt_state_blocks_updates_witness :
  "oops" ≠ ""
  ∧ updateParticipantState "s" "p" mute
      (mkWorld (Avail {[stateKey "s" "p" := NotJson "oops"]} false) T0)
    = (Ok tt,
       mkWorld (Avail {[stateKey "s" "p" := NotJson "oops"]} false) T0)
  ∧ getParticipantState "s" "p"
      (mkWorld (Avail {[stateKey "s" "p" := NotJson "oops"]} false) T0)
    = (Ok (JObj []),
       mkWorld (Avail {[stateKey "s" "p" := NotJson "oops"]} false) T0).
Proof.
  assert ("oops" ≠ "") as Hne by done.
  split; [exact Hne|].
  exact (corrupt_state_blocks_updates "s" "p" mute
           (mkWorld (Avail {[stateKey "s" "p" := NotJson "oops"]} false) T0)
           _ false "oops" eq_refl (lookup_singleton_eq _ _) Hne).
Defined.

(** [corrupt_messages_replaced] on a record that is not JSON. *)
Lemma corrupt_messages_replaced_witness :
  "oops" ≠ ""
  ∧ loadMessages "s1"
      (mkWorld (Avail {[getCacheKey "s1" := NotJson "oops"]} false) T0)
    = (Ok (JArr []),
       mkWorld (Avail {[getCacheKey "s1" := NotJson "oops"]} false) T0)
  ∧ ∃ w', addMessage "s1" m1
            (mkWorld (Avail {[getCacheKey "s1" := NotJson "oops"]} false) T0)
          = (Ok tt, w')
          ∧ loadMessages "s1" w' = (Ok (JArr [json_of_message m1]), w').
Proof.
  assert ("oops" ≠ "") as Hne by done.
  split; [exact Hne|].
  refine (corrupt_messages_replaced "s1" m1
            (mkWorld (Avail {[getCacheKey "s1" := NotJson "oops"]} false) T0)
            _ "oops" eq_refl (lookup_singleton_eq _ _) Hne _).
  by vm_compute.
Defined.
End RecordInstances.

Section EnrichmentDuplicates.
Context `{Platform}.

(** A cached message does nothing to the enrichment when its id is the id
    of a live message or of a cached message before it: the pass gives
    what it gives without it. *)
Theorem enrich_ignores_duplicate live before c after :
  CachedMessage.id c ∈ ChatMessage.id <$> live
  ∨ CachedMessage.id c ∈ CachedMessage.id <$> before →
  enrich live (before ++ c :: after) = enrich live (before ++ after).
Proof.
  intros Hknown%allMessages_ids.
  assert (allMessages live (before ++ c :: after)
          = allMessages live (before ++ after)) as Hall.
  { unfold allMessages in *. rewrite !fold_left_app. simpl.
    rewrite push_cached_spec, decide_True by done. by rewrite app_nil_r. }
  unfold enrich, enhanced. by rewrite Hall.
Qed.
End EnrichmentDuplicates.

Section EnrichmentDuplicatesInstances.
#[local] Existing Instance Reference.platform.
Import Sample.

(** [enrich_ignores_duplicate]: the stale cached copy of the live [m2]
    does not count. *)
Lemma enrich_ignores_duplicate_witness :
  (CachedMessage.id m2_stale ∈ ChatMessage.id <$> [m2]
   ∨ CachedMessage.id m2_stale ∈ CachedMessage.id <$> [m1])
  ∧ enrich [m2] ([m1] ++ m2_stale :: []) = enrich [m2] ([m1] ++ []).
Proof.
  assert (CachedMessage.id m2_stale ∈ ChatMessage.id <$> [m2]
          ∨ CachedMessage.id m2_stale ∈ CachedMessage.id <$> [m1]) as Hknown
    by (left; apply list_elem_of_here).
  split; [exact Hknown|].
  exact (enrich_ignores_duplicate [m2] [m1] m2_stale [] Hknown).
Defined.
End EnrichmentDuplicatesInstances.
